(** * Shaker: the asset compiler of lib/shaker.js

    A shallow embedding of [lib/shaker.js]: the three gear builders
    ([Image], [Rollup], [ClientRollup]), the file classifier
    ([_filterFiles]), the development rewrite ([_rename]), the lint gate
    ([_lintFiles]), the planner ([_queueRollups]) and the async queue that
    [_compileRollups] drives.

    JavaScript arrays are mutable and shared by reference: the planner
    hands the very array that sits in the metadata to the task that will
    later push the produced URL into it.  Arrays therefore live in a heap,
    the metadata holds their addresses, and a task holds the address of the
    array it writes to. *)

From Stdlib Require Import Ascii String Lia.
From stdpp Require Import base option list strings gmap relations.

Set Default Proof Using "Type".

(** ** Values shared by the builders *)

(** [{name: file, sync: true}], the read request gear's [read] task takes. *)
Record readspec := ReadSpec { rs_name : string; rs_sync : bool }.

(** The object literal that [_compileRollups] hands to every [build], as
    far as the builders read it: [task], [minify], [strip], [config], and
    the [bundleViews] key that only [ClientRollup.build] looks at.  A key
    that the object does not carry is [None]. *)
Record config := Config {
  cfg_root : string;
  cfg_name : option string;
  cfg_encoding : option string;
  cfg_rest : list (string * string)
}.

Inductive jsflag :=
| JTrue
| JFalse
| JText (s : string).

Record options := Options {
  opt_task : string;
  opt_minify : bool;
  opt_strip : option string;
  opt_config : config;
  opt_bundleViews : option jsflag
}.

(** A string is truthy when it is not empty. *)
Definition nonempty (s : string) : bool :=
  match s with
  | EmptyString => false
  | String _ _ => true
  end.

Definition dq : string := String "034"%char EmptyString.
Definition nl : string := String "010"%char EmptyString.
Definition tab : string := String "009"%char EmptyString.

(** JavaScript truthiness of a property that may be missing. *)
Definition truthy (v : option jsflag) : bool :=
  match v with
  | None => false
  | Some JTrue => true
  | Some JFalse => false
  | Some (JText s) => nonempty s
  end.

(** A blob travelling through a gear queue. *)
Record blob := Blob { blob_name : string; blob_result : string }.

(** What went wrong inside a concat callback: [parts] was [null]. *)
Inductive cb_result :=
| CbValue (s : string)
| CbTypeError.

(** The tasks a builder strings together on a gear queue. *)
Inductive gear_step :=
| GRead (files : list readspec)
| GReadBin (name : string)
| GConcat (callback : option (blob → cb_result))
| GReplace (pattern : string)
| GTask (name : string) (cfg : option config).

(** The first blob of [results] on success of a gear queue. *)
Record gear_blob := GearBlob {
  gb_url : option string;
  gb_name : string;
  gb_skipped : bool
}.

Inductive gear_outcome :=
| GearErr (err : string)
| GearOk (result : gear_blob).

(** ** The metadata

    [metadata.mojits[mojit][action]] and [metadata.app[action]] are objects
    with a [shaken] map from dimension to array and a [client] array;
    [metadata.core] and [metadata.images] are arrays.  Objects are walked
    with [for ... in], in the order of their keys, so they are association
    lists; arrays are addresses into the heap. *)
Abbreviation loc := nat (only parsing).
Abbreviation heap := (gmap nat (list string)) (only parsing).

Record view := View {
  shaken : list (string * loc);
  client : loc
}.

Record metadata := Metadata {
  mojits : list (string * list (string * view));
  app : list (string * view);
  core : loc;
  images : loc
}.

(** ** The collaborators

    Everything [lib/shaker.js] requires from other modules: the [mime] and
    [path] packages, the gear queue runner, CSSLint, and the [ShakerCore]
    object of [lib/core.js]. *)
Class Env := {
  mime_lookup : string → string;
  path_basename : string → string;
  gear_run : list gear_step → gear_outcome;
  csslint : string → list string;
  view_parts : bool → string → option (string * string * string);
  json_stringify : string → string;
  core_isMojitApp : bool;
  core_run : string → metadata * heap;
  core_getFiles : list string;
  core_getURL : string → string;
  core_getAppRoot : string;
  core_getStaticRoot : string
}.

(** ** A concrete [mime.lookup]

    [mime.lookup(path)] takes what follows the last [.] or [/] of the path,
    lower-cased, and looks it up in the type table (here the entries the
    compiler meets), falling back to the default type. *)
Module Mime.
Definition is_sep (c : ascii) : bool :=
  Ascii.eqb c "."%char || Ascii.eqb c "/"%char.

Definition lower (c : ascii) : ascii :=
  let n := nat_of_ascii c in
  if (65 <=? n) && (n <=? 90) then ascii_of_nat (n + 32) else c.

Fixpoint after_last_sep (s : string) : option string :=
  match s with
  | EmptyString => None
  | String c r =>
      match after_last_sep r with
      | Some e => Some e
      | None => if is_sep c then Some r else None
      end
  end.

Fixpoint lowercase (s : string) : string :=
  match s with
  | EmptyString => EmptyString
  | String c r => String (lower c) (lowercase r)
  end.

Definition extension (path : string) : string :=
  lowercase (default path (after_last_sep path)).

Definition types (ext : string) : option string :=
  if String.eqb ext "js" then Some "application/javascript"
  else if String.eqb ext "css" then Some "text/css"
  else if String.eqb ext "html" then Some "text/html"
  else if String.eqb ext "htm" then Some "text/html"
  else if String.eqb ext "json" then Some "application/json"
  else if String.eqb ext "png" then Some "image/png"
  else if String.eqb ext "gif" then Some "image/gif"
  else if String.eqb ext "jpg" then Some "image/jpeg"
  else if String.eqb ext "jpeg" then Some "image/jpeg"
  else None.

Definition default_type : string := "application/octet-stream".

Definition lookup (path : string) : string :=
  default default_type (types (extension path)).
End Mime.

(** ** The builders *)

Inductive builder :=
| Image (name : string) (file : string)
| Rollup (name : string) (files : list readspec)
| ClientRollup (name : string) (base : string) (files : list readspec).

(** [files.map(function (file) { return {name: file, sync: true}; })] *)
Definition sync_files (files : list string) : list readspec :=
  map (λ file, ReadSpec file true) files.

(** The constructors [new Image], [new Rollup], [new ClientRollup]. *)
Definition new_Image (name file : string) : builder := Image name file.
Definition new_Rollup (name : string) (files : list string) : builder :=
  Rollup name (sync_files files).
Definition new_ClientRollup (name base : string) (files : list string) : builder :=
  ClientRollup name base (sync_files files).

(** What a [build] hands to its callback: [callback(err)] or
    [callback(null, url, skipped)]. *)
Inductive build_outcome :=
| BuildErr (err : string)
| BuildOk (url : string) (skipped : bool).

Section Builders.
Context `{Env}.

(** [utils.simpleClone(options.config)] followed by the assignments to
    [config.name] and [config.encoding]. *)
Definition config_named (c : config) (name : string) : config :=
  Config (cfg_root c) (Some name) (cfg_encoding c) (cfg_rest c).
Definition config_bin (c : config) : config :=
  Config (cfg_root c) (cfg_name c) (Some "bin") (cfg_rest c).

(** [result.url ? result.url : config.root + result.name] *)
Definition result_url (c : config) (result : gear_blob) : string :=
  match gb_url result with
  | Some u => if nonempty u then u else cfg_root c +:+ gb_name result
  | None => cfg_root c +:+ gb_name result
  end.

(** The callback [ClientRollup.build] gives to [concat]. *)
Definition client_concat (o : options) (b : blob) : cb_result :=
  let filename := blob_name b in
  let result := blob_result b in
  if String.eqb (mime_lookup filename) "text/html" then
    if truthy (opt_bundleViews o) then
      let npm := match index 0 "node_modules" filename with
                 | Some _ => true | None => false end in
      match view_parts npm filename with
      | None => CbTypeError
      | Some (mojit, action, renderer) =>
          let json := json_stringify result in
          CbValue
            ("YUI.add(" +:+ dq +:+ "views/" +:+ mojit +:+ "/" +:+ action
               +:+ dq +:+ ", function (Y, NAME) {" +:+ nl
             +:+ tab +:+ "YUI.namespace(" +:+ dq +:+ "_mojito._cache.compiled."
               +:+ mojit +:+ ".views" +:+ dq +:+ ");" +:+ nl
             +:+ tab +:+ "YUI._mojito._cache.compiled." +:+ mojit
               +:+ ".views." +:+ action +:+ " = " +:+ json +:+ ";" +:+ nl
             +:+ "});")
      end
    else CbValue EmptyString
  else CbValue result.

(** [if (options.strip) { queue.replace(options.strip); }] *)
Definition strip_steps (o : options) : list gear_step :=
  match opt_strip o with
  | Some pat => if nonempty pat then [GReplace pat] else []
  | None => []
  end.

(** The gear queue a builder assembles, and the configuration it ends
    with. *)
Definition pipeline (b : builder) (o : options) : list gear_step * config :=
  match b with
  | Image name file =>
      let cfg := config_bin (config_named (opt_config o) name) in
      ([GReadBin file; GTask (opt_task o) (Some cfg)], cfg)
  | Rollup name files =>
      let cfg := config_named (opt_config o) name in
      ([GRead files; GConcat None]
         ++ strip_steps o
         ++ (if opt_minify o
             then [GTask (if String.eqb (mime_lookup name) "application/javascript"
                          then "jsminify" else "cssminify") None]
             else [])
         ++ [GTask (opt_task o) (Some cfg)], cfg)
  | ClientRollup name base files =>
      let cfg := config_named (opt_config o) name in
      ([GRead files; GConcat (Some (client_concat o))]
         ++ strip_steps o
         ++ (if opt_minify o then [GTask "jsminify" None] else [])
         ++ [GTask (opt_task o) (Some cfg)], cfg)
  end.

(** [build(registry, options, callback)]: run the queue and report. *)
Definition build (b : builder) (o : options) : build_outcome :=
  let '(steps, cfg) := pipeline b o in
  match gear_run steps with
  | GearErr err => BuildErr err
  | GearOk result =>
      BuildOk (result_url cfg result)
              (match b with
               | Rollup _ _ => gb_skipped result
               | _ => false
               end)
  end.
End Builders.

(** ** The compiler object *)

(** The [shaker] section of application.json, every key optional. *)
Record shaker_config := ShakerConfig {
  sc_task : option string;
  sc_compiled_dir : option string;
  sc_images : option bool;
  sc_parallel : option nat;
  sc_delay : option nat;
  sc_lint : option bool;
  sc_minify : option bool;
  sc_strip : option string;
  sc_config : option (list (string * string))
}.

Record Shaker := MkShaker {
  _task : string;
  _compiled_dir : string;
  _images : bool;
  _parallel : nat;
  _delay : nat;
  _lint : bool;
  _minify : bool;
  _strip : option string;
  _config : config
}.

Definition DEFAULT_TASK : string := "raw".
Definition ASSETS_DIR : string := "assets/".
Definition COMPILED_DIR : string := ASSETS_DIR +:+ "compiled/".
Definition IMAGES_DIR : string := ASSETS_DIR +:+ "images/".

(** [a || b] on strings that may be missing. *)
Definition or_default (a : option string) (b : string) : string :=
  match a with
  | Some s => if nonempty s then s else b
  | None => b
  end.

(** A task the async queue carries: [{object: builder, files: array}]. *)
Record item := Item { object : builder; files : loc }.

(** One call of the callback given to [Shaker.run]: [callback(err)] or
    [callback(null, metadata)], the metadata being what its arrays hold at
    that moment. *)
Record call := Call { call_err : option string; call_metadata : option heap }.

(** The async queue ([tasks], [workers]), the arrays, and what the run has
    done so far. *)
Record qstate := QState {
  q_heap : heap;
  q_tasks : list item;
  q_workers : nat;
  q_running : list item;
  q_done : list (item * string);
  q_thrown : list (item * string);
  q_builds : list (builder * options);
  q_written : list heap;
  q_calls : list call
}.

(** [str.replace('*', 'default')]: the first star only. *)
Fixpoint replace_star (s : string) : string :=
  match s with
  | EmptyString => EmptyString
  | String c r =>
      if Ascii.eqb c "*"%char then "default" +:+ r
      else String c (replace_star r)
  end.

Record filtered (A : Type) := Filtered { js : list A; css : list A }.
Arguments Filtered {A} _ _.
Arguments js {A} _.
Arguments css {A} _.

(** What [_filterFiles] pushes: the name, or the name wrapped for a
    synchronous read. *)
Definition entry (syncWrap : bool) : Type :=
  if syncWrap then readspec else string.

Definition mk_entry (syncWrap : bool) (file : string) : entry syncWrap :=
  match syncWrap with
  | true => ReadSpec file true
  | false => file
  end.

Definition entry_name {syncWrap : bool} : entry syncWrap → string :=
  match syncWrap with
  | true => rs_name
  | false => λ file, file
  end.

Section Compiler.
Context `{Env}.

(** The constructor. *)
Definition new_Shaker (shaker : shaker_config) : Shaker :=
  {| _task := match sc_task shaker with
              | Some t =>
                  if nonempty t
                  then (if String.eqb t "local" then "write" else t)
                  else DEFAULT_TASK
              | None => DEFAULT_TASK
              end;
     _compiled_dir := or_default (sc_compiled_dir shaker) COMPILED_DIR;
     _images := default false (sc_images shaker);
     _parallel := default 20 (sc_parallel shaker);
     _delay := default 0 (sc_delay shaker);
     _lint := default true (sc_lint shaker);
     _minify := default true (sc_minify shaker);
     _strip := sc_strip shaker;
     _config := Config core_getStaticRoot None None
                       (default [] (sc_config shaker)) |}.

(** *** [_filterFiles] *)
Definition _filterFiles (files : list string) (syncWrap : bool)
    : filtered (entry syncWrap) :=
  fold_left
    (λ acc file,
       let type := mime_lookup file in
       if String.eqb type "application/javascript"
       then Filtered (js acc ++ [mk_entry syncWrap file]) (css acc)
       else if String.eqb type "text/css"
       then Filtered (js acc) (css acc ++ [mk_entry syncWrap file])
       else acc)
    files (Filtered [] []).

(** *** [_rename] *)

(** [for (item in list) { list[item] = getURL(list[item]); }] *)
Definition rename_items (arr : list string) : list string :=
  fold_left
    (λ arr item,
       match arr !! item with
       | Some file => <[item := core_getURL file]> arr
       | None => arr
       end)
    (seq 0 (length arr)) arr.

Definition rename_list (h : heap) (l : loc) : heap :=
  <[l := rename_items (h !!! l)]> h.

Definition rename_view (h : heap) (v : view) : heap :=
  rename_list (fold_left rename_list (map snd (shaken v)) h) (client v).

Definition _rename (md : metadata) (h : heap) : heap :=
  let h := fold_left
             (λ h mojit, fold_left rename_view (map snd (snd mojit)) h)
             (mojits md) h in
  let h := fold_left rename_view (map snd (app md)) h in
  rename_list h (core md).

(** *** [_queueRollups]

    The planner appends to the queue and empties arrays as it goes; a
    plan is the queue's task list together with the heap. *)
Definition push (it : item) (p : list item * heap) : list item * heap :=
  (p.1 ++ [it], p.2).

(** [array.length = 0] *)
Definition truncate (l : loc) (p : list item * heap) : list item * heap :=
  (p.1, <[l := []]> p.2).

Definition queue_images (md : metadata) (p : list item * heap)
    : list item * heap :=
  truncate (images md)
    (fold_left
       (λ p image,
          push (Item (new_Image (IMAGES_DIR +:+ path_basename image) image)
                     (images md)) p)
       (p.2 !!! images md) p).

Definition queue_core (sh : Shaker) (md : metadata) (p : list item * heap)
    : list item * heap :=
  truncate (core md)
    (push (Item (new_Rollup (_compiled_dir sh +:+ "core_{checksum}.js")
                            (p.2 !!! core md))
                (core md)) p).

Definition queue_client (name : string) (l : loc) (p : list item * heap)
    : list item * heap :=
  let client := p.2 !!! l in
  if 0 <? length client
  then truncate l (push (Item (new_ClientRollup name core_getAppRoot client) l) p)
  else p.

Definition queue_dim (sh : Shaker) (name : string) (l : loc)
    (p : list item * heap) : list item * heap :=
  let dim_files := p.2 !!! l in
  if 0 <? length dim_files then
    let filtered := _filterFiles dim_files false in
    let p := if 0 <? length (js filtered)
             then push (Item (new_Rollup (_compiled_dir sh +:+ name +:+ ".js")
                                         (js filtered)) l) p
             else p in
    let p := if 0 <? length (css filtered)
             then push (Item (new_Rollup (_compiled_dir sh +:+ name +:+ ".css")
                                         (css filtered)) l) p
             else p in
    truncate l p
  else p.

(** One [action] of a mojit or of the application: its client array,
    then its dimensions. *)
Definition queue_view (sh : Shaker) (client_name dim_name : string)
    (v : view) (p : list item * heap) : list item * heap :=
  fold_left (λ p dim, queue_dim sh dim_name dim.2 p) (shaken v)
    (queue_client client_name (client v) p).

Definition mojit_client_name (sh : Shaker) (mojit : string) : string :=
  _compiled_dir sh +:+ "client_" +:+ mojit +:+ "_{checksum}.js".
Definition mojit_dim_name (mojit action : string) : string :=
  mojit +:+ "_" +:+ replace_star action +:+ "_{checksum}".
Definition app_client_name (sh : Shaker) (action : string) : string :=
  _compiled_dir sh +:+ "appclient_" +:+ action +:+ "_{checksum}.js".
Definition app_dim_name (action : string) : string :=
  "app_" +:+ replace_star action +:+ "_{checksum}".

Definition queue_mojits (sh : Shaker) (md : metadata) (p : list item * heap)
    : list item * heap :=
  fold_left
    (λ p mojit,
       fold_left
         (λ p action,
            queue_view sh (mojit_client_name sh mojit.1)
                       (mojit_dim_name mojit.1 action.1) action.2 p)
         mojit.2 p)
    (mojits md) p.

Definition queue_app (sh : Shaker) (md : metadata) (p : list item * heap)
    : list item * heap :=
  fold_left
    (λ p action,
       queue_view sh (app_client_name sh action.1) (app_dim_name action.1)
                  action.2 p)
    (app md) p.

Definition _queueRollups (sh : Shaker) (queue : list item) (md : metadata)
    (h : heap) : list item * heap :=
  let p := (queue, h) in
  let p := if _images sh then queue_images md p else p in
  let p := queue_core sh md p in
  let p := queue_mojits sh md p in
  queue_app sh md p.

(** *** [_compileRollups]: the async queue

    [_compileRollups] builds the queue, installs [drain] and lets the
    planner fill it; nothing runs before the planner returns.  From then
    on the event loop interleaves two kinds of turns: [q.process] starts
    the next task when a worker is free, and a build reports back.  The
    [setTimeout] of [_delay] milliseconds only postpones the build of a
    started task. *)
Definition the_options (sh : Shaker) : options :=
  {| opt_task := _task sh;
     opt_minify := _minify sh;
     opt_strip := _strip sh;
     opt_config := _config sh;
     opt_bundleViews := None |}.

Definition _compileRollups (sh : Shaker) (md : metadata) (h : heap) : qstate :=
  let p := _queueRollups sh [] md h in
  QState p.2 p.1 0 [] [] [] [] [] [].

(** [q.process]: shift a task and hand it to the worker. *)
Definition process (s : qstate) (t : item) (ts : list item) : qstate :=
  QState (q_heap s) ts (q_workers s + 1) (q_running s ++ [t])
         (q_done s) (q_thrown s) (q_builds s) (q_written s) (q_calls s).

(** The build of [it] called back with [url]: the worker pushes the URL
    into the task's array and calls [taskCallback], which frees the
    worker and fires [drain] when nothing is left. *)
Definition finish (sh : Shaker) (s : qstate) (rest : list item) (it : item)
    (url : string) : qstate :=
  let h := <[files it := (q_heap s !!! files it) ++ [url]]> (q_heap s) in
  let workers := q_workers s - 1 in
  let drained := length (q_tasks s) + workers =? 0 in
  QState h (q_tasks s) workers rest
         (q_done s ++ [(it, url)]) (q_thrown s)
         (q_builds s ++ [(object it, the_options sh)])
         (if drained then q_written s ++ [h] else q_written s)
         (if drained then q_calls s ++ [Call None (Some h)] else q_calls s).

(** The build of [it] called back with [err]: the worker throws it;
    [taskCallback] is never called, so the worker stays taken. *)
Definition throw (sh : Shaker) (s : qstate) (rest : list item) (it : item)
    (err : string) : qstate :=
  QState (q_heap s) (q_tasks s) (q_workers s) rest
         (q_done s) (q_thrown s ++ [(it, err)])
         (q_builds s ++ [(object it, the_options sh)])
         (q_written s) (q_calls s).

Inductive step (sh : Shaker) : relation qstate :=
| step_process s t ts :
    q_tasks s = t :: ts →
    q_workers s < _parallel sh →
    step sh s (process s t ts)
| step_built s pre it post url skipped :
    q_running s = pre ++ it :: post →
    build (object it) (the_options sh) = BuildOk url skipped →
    step sh s (finish sh s (pre ++ post) it url)
| step_threw s pre it post err :
    q_running s = pre ++ it :: post →
    build (object it) (the_options sh) = BuildErr err →
    step sh s (throw sh s (pre ++ post) it err).

(** *** [_runTask], [_lintFiles], [run] *)
Definition idle (h : heap) : qstate := QState h [] 0 [] [] [] [] [] [].

Definition _runTask (sh : Shaker) (md : metadata) (h : heap) : qstate :=
  if String.eqb (_task sh) DEFAULT_TASK then
    let h := _rename md h in
    QState h [] 0 [] [] [] [] [h] [Call None (Some h)]
  else _compileRollups sh md h.

(** The callback given to [csslint]: a truthy return value is the error
    of the queue. *)
Definition lint_callback (messages : list string) : option string :=
  if 0 <? length messages then Some "[SHAKER] - Aborting" else None.

(** [new gear.Queue().read(files).csslint({callback}).run(...)]: the
    error the queue ends with, if any. *)
Definition gear_csslint (lint_files : list readspec) : option string :=
  foldr (λ f acc, match lint_callback (csslint (rs_name f)) with
                  | Some err => Some err
                  | None => acc
                  end) None lint_files.

(** [callback] is the state the run is in once the continuation has been
    called, [stalled] the state it is left in when it never is. *)
Definition _lintFiles (callback stalled : qstate) : qstate :=
  let filtered := _filterFiles core_getFiles true in
  if 0 <? length (css filtered) then
    match gear_csslint (css filtered) with
    | Some err => stalled
    | None => callback
    end
  else stalled.

Definition run (sh : Shaker) : qstate :=
  if negb core_isMojitApp then
    QState ∅ [] 0 [] [] [] [] [] [Call (Some "ERROR") None]
  else
    let '(md, h) := core_run (_compiled_dir sh) in
    if _lint sh then _lintFiles (_runTask sh md h) (idle h)
    else _runTask sh md h.
End Compiler.

(** ** Vocabulary of the statements *)
Section Vocabulary.
Context `{Env}.

(** The two content types the classifier keeps. *)
Definition is_js (file : string) : Prop :=
  mime_lookup file = "application/javascript".
Definition is_css (file : string) : Prop :=
  mime_lookup file = "text/css".

#[global] Instance is_js_dec file : Decision (is_js file).
Proof. unfold is_js. apply _. Defined.
#[global] Instance is_css_dec file : Decision (is_css file).
Proof. unfold is_css. apply _. Defined.

(** The arrays of the metadata under [mojits] and [app], in the order the
    planner visits them: for every action its client array, then its
    dimensions.  A leaf remembers whose it is, for the bundle's name. *)
Inductive leaf_kind := KClient | KDim.

#[global] Instance leaf_kind_eq_dec : EqDecision leaf_kind.
Proof. solve_decision. Defined.

Record leaf := Leaf {
  leaf_kind_of : leaf_kind;
  leaf_mojit : option string;
  leaf_action : string;
  leaf_loc : loc
}.

#[global] Instance leaf_eq_dec : EqDecision leaf.
Proof. solve_decision. Defined.

Definition view_leaves (mojit : option string) (action : string) (v : view)
    : list leaf :=
  Leaf KClient mojit action (client v)
    :: map (λ dim, Leaf KDim mojit action dim.2) (shaken v).

Definition mojit_leaves (mojit : string * list (string * view)) : list leaf :=
  flat_map (λ action, view_leaves (Some mojit.1) action.1 action.2) mojit.2.

Definition tree_leaves (md : metadata) : list leaf :=
  flat_map mojit_leaves (mojits md)
    ++ flat_map (λ action, view_leaves None action.1 action.2) (app md).

Definition client_leaves (md : metadata) : list loc :=
  map leaf_loc (filter (λ lf, leaf_kind_of lf = KClient) (tree_leaves md)).
Definition dim_leaves (md : metadata) : list loc :=
  map leaf_loc (filter (λ lf, leaf_kind_of lf = KDim) (tree_leaves md)).

(** The planner's visit of one leaf. *)
Definition leaf_client_name (sh : Shaker) (lf : leaf) : string :=
  match leaf_mojit lf with
  | Some mojit => mojit_client_name sh mojit
  | None => app_client_name sh (leaf_action lf)
  end.

Definition leaf_dim_name (lf : leaf) : string :=
  match leaf_mojit lf with
  | Some mojit => mojit_dim_name mojit (leaf_action lf)
  | None => app_dim_name (leaf_action lf)
  end.

Definition queue_leaf (sh : Shaker) (lf : leaf) (p : list item * heap)
    : list item * heap :=
  match leaf_kind_of lf with
  | KClient => queue_client (leaf_client_name sh lf) (leaf_loc lf) p
  | KDim => queue_dim sh (leaf_dim_name lf) (leaf_loc lf) p
  end.

(** The tasks the planner queues for a leaf whose array holds [content]
    when the planner gets to it, for the images, and for core. *)
Definition leaf_tasks (sh : Shaker) (lf : leaf) (content : list string)
    : list item :=
  (queue_leaf sh lf ([], {[leaf_loc lf := content]})).1.

Definition image_tasks (md : metadata) (content : list string) : list item :=
  map (λ image, Item (new_Image (IMAGES_DIR +:+ path_basename image) image)
                     (images md)) content.

Definition core_task (sh : Shaker) (md : metadata) (content : list string)
    : item :=
  Item (new_Rollup (_compiled_dir sh +:+ "core_{checksum}.js") content)
       (core md).

(** The tasks whose array is [l]. *)
Definition tasks_for (l : loc) (ts : list item) : list item :=
  filter (λ it, files it = l) ts.

(** The URLs that the completed tasks pushed into [l], oldest first. *)
Definition urls_for (l : loc) (done : list (item * string)) : list string :=
  map snd (filter (λ d, files d.1 = l) done).

(** The queue as [_compileRollups] leaves it to the event loop. *)
Definition start (ts : list item) (h : heap) : qstate :=
  QState h ts 0 [] [] [] [] [] [].

(** What holds of the queue all along a run that started with the tasks
    [ts] and the arrays [h0]. *)
Record inv (sh : Shaker) (ts : list item) (h0 : heap) (s : qstate) : Prop := Inv {
  inv_workers : q_workers s = length (q_running s) + length (q_thrown s);
  inv_tasks :
    ts ≡ₚ q_tasks s ++ q_running s
            ++ map fst (q_thrown s) ++ map fst (q_done s);
  inv_heap : ∀ l, q_heap s !!! l = h0 !!! l ++ urls_for l (q_done s);
  inv_done :
    Forall (λ d, ∃ skipped,
              build (object d.1) (the_options sh) = BuildOk d.2 skipped)
           (q_done s);
  inv_thrown :
    Forall (λ t, build (object t.1) (the_options sh) = BuildErr t.2)
           (q_thrown s);
  inv_builds :
    map fst (q_builds s)
    ≡ₚ map object (map fst (q_done s) ++ map fst (q_thrown s));
  inv_options : Forall (λ b, b.2 = the_options sh) (q_builds s);
  inv_written :
    q_written s
    = if decide (q_tasks s = [] ∧ q_workers s = 0 ∧ q_done s ≠ [])
      then [q_heap s] else [];
  inv_calls : q_calls s = map (λ h, Call None (Some h)) (q_written s)
}.

(** Nothing is left to do. *)
Definition quiet (s : qstate) : Prop := q_tasks s = [] ∧ q_running s = [].

(** The event loop has no turn left to take. *)
Definition stuck (sh : Shaker) (s : qstate) : Prop := ∀ s', ¬ step sh s s'.

(** The build of a task succeeds; the builds of all tasks succeed. *)
Definition build_ok (sh : Shaker) (it : item) : bool :=
  match build (object it) (the_options sh) with
  | BuildOk _ _ => true
  | BuildErr _ => false
  end.
Definition builds_ok (sh : Shaker) (ts : list item) : bool :=
  forallb (build_ok sh) ts.

(** Turns the queue can still take: two for a waiting task, one for a
    running one. *)
Definition turns_left (s : qstate) : nat :=
  2 * length (q_tasks s) + length (q_running s).

(** One schedule of the event loop, to run the queue with: start a
    task whenever a worker is free, otherwise let the oldest running
    build report back. *)
Definition report (sh : Shaker) (s : qstate) : option qstate :=
  match q_running s with
  | it :: post =>
      Some (match build (object it) (the_options sh) with
            | BuildOk url _ => finish sh s post it url
            | BuildErr err => throw sh s post it err
            end)
  | [] => None
  end.

Definition turn (sh : Shaker) (s : qstate) : option qstate :=
  match q_tasks s with
  | t :: ts =>
      if q_workers s <? _parallel sh then Some (process s t ts)
      else report sh s
  | [] => report sh s
  end.

Fixpoint drive (n : nat) (sh : Shaker) (s : qstate) : qstate :=
  match n with
  | 0 => s
  | S n => match turn sh s with
           | Some s' => drive n sh s'
           | None => s
           end
  end.

(** The files a builder was given. *)
Definition inputs (b : builder) : list string :=
  match b with
  | Image _ file => [file]
  | Rollup _ rs => map rs_name rs
  | ClientRollup _ _ rs => map rs_name rs
  end.

Definition builder_name (b : builder) : string :=
  match b with
  | Image name _ => name
  | Rollup name _ => name
  | ClientRollup name _ _ => name
  end.

(** The two fates of an array in a build run over the arrays [h]: left
    alone, with no task that writes to it; or emptied by the planner, its
    files [snapshot] handed to the tasks that write to it, and from then
    on holding only what those tasks pushed. *)
Definition untouched (sh : Shaker) (md : metadata) (h : heap) (l : loc) : Prop :=
  tasks_for l (_queueRollups sh [] md h).1 = []
  ∧ (_queueRollups sh [] md h).2 !!! l = h !!! l
  ∧ ∀ s, rtc (step sh) (_compileRollups sh md h) s → q_heap s !!! l = h !!! l.

Definition consumed (sh : Shaker) (md : metadata) (h : heap) (l : loc)
    (snapshot : list string) : Prop :=
  (_queueRollups sh [] md h).2 !!! l = []
  ∧ flat_map (λ it, inputs (object it)) (tasks_for l (_queueRollups sh [] md h).1)
    = snapshot
  ∧ ∀ s, rtc (step sh) (_compileRollups sh md h) s →
         q_heap s !!! l = urls_for l (q_done s).

(** Everything the planner queues for a tree whose arrays are [h]. *)
Definition planned (sh : Shaker) (md : metadata) (h : heap) : list item :=
  (if _images sh then image_tasks md (h !!! images md) else [])
    ++ core_task sh md (h !!! core md)
    :: flat_map (λ lf, leaf_tasks sh lf (h !!! leaf_loc lf)) (tree_leaves md).

(** Every array of the metadata. *)
Definition leaves (md : metadata) : list loc :=
  images md :: core md :: map leaf_loc (tree_leaves md).

(** The metadata is a tree: no array sits in two places. *)
Definition is_tree (md : metadata) : Prop := NoDup (leaves md).

#[global] Instance is_tree_dec md : Decision (is_tree md).
Proof. unfold is_tree. apply _. Defined.
End Vocabulary.

(** ** A concrete application

    Collaborators to run the compiler against: [mime.lookup] as above,
    [path.basename] as the part after the last slash, a gear runner that
    fails with [ENOENT] when asked to read a file called [missing.js] and
    otherwise writes the blob under the name it is given, a lint that
    objects to [bad.css] only, and a static root of [/static/]. *)
Module Sample.
Fixpoint basename_aux (acc s : string) : string :=
  match s with
  | EmptyString => acc
  | String c r =>
      if Ascii.eqb c "/"%char then basename_aux r r else basename_aux acc r
  end.
Definition basename (s : string) : string := basename_aux s s.

Definition reads_missing (g : gear_step) : bool :=
  match g with
  | GRead rs => existsb (λ r, String.eqb (rs_name r) "missing.js") rs
  | GReadBin name => String.eqb name "missing.js"
  | _ => false
  end.

Definition written_name (steps : list gear_step) : string :=
  match last steps with
  | Some (GTask _ (Some cfg)) => default EmptyString (cfg_name cfg)
  | _ => EmptyString
  end.

Definition run_gear (steps : list gear_step) : gear_outcome :=
  if existsb reads_missing steps then GearErr "ENOENT"
  else GearOk (GearBlob None (written_name steps) false).

Definition lint (name : string) : list string :=
  if String.eqb name "bad.css" then ["Unknown property"] else [].

(** One mojit with one action: a client array at 2 and two dimensions,
    at 3 and 4; one application action with an empty client array at 5
    and a dimension at 6; core at 0 and two images at 1. *)
Definition tree : metadata :=
  Metadata [("Foo", [("index", View [("common", 3); ("iphone", 4)] 2)])]
           [("*", View [("common", 6)] 5)]
           0 1.

Definition arrays : gmap nat (list string) :=
  <[0 := ["yui.js"; "mojito.js"]]>
  (<[1 := ["img/logo.png"; "img/bg.gif"]]>
  (<[2 := ["mojits/Foo/views/index.mu.html"; "binder.js"]]>
  (<[3 := ["a.js"; "b.css"; "c.png"]]>
  (<[4 := ["d.png"]]>
  (<[6 := ["app.css"]]> ∅))))).

Definition env_with (discovered : list string) (md : metadata)
    (h : gmap nat (list string)) : Env :=
  {| mime_lookup := Mime.lookup;
     path_basename := basename;
     gear_run := run_gear;
     csslint := lint;
     view_parts := λ _ _, None;
     json_stringify := λ s, s;
     core_isMojitApp := true;
     core_run := λ _, (md, h);
     core_getFiles := discovered;
     core_getURL := λ file, "/static/" +:+ file;
     core_getAppRoot := "/app";
     core_getStaticRoot := "/static/" |}.

Definition env : Env := env_with ["a.js"; "b.css"; "c.png"] tree arrays.

Definition build_shaker : Shaker :=
  @new_Shaker env
    (ShakerConfig (Some "local") None (Some true) (Some 2) None (Some false)
                  None None None).

Definition dev_shaker : Shaker :=
  @new_Shaker env
    (ShakerConfig None None (Some true) None None (Some false) None None None).

(** The same build without image deployment: five tasks, two workers. *)
Definition plain_shaker : Shaker :=
  @new_Shaker env
    (ShakerConfig (Some "local") None None (Some 2) None (Some false)
                  None None None).

(** An application in which only scripts were discovered, compiled with
    the default [lint] setting. *)
Definition scripts_only : Env := env_with ["a.js"] tree arrays.
Definition lint_shaker : Shaker :=
  @new_Shaker scripts_only
    (ShakerConfig (Some "local") None None None None None None None None).

(** A tree with nothing but a core, and a core that cannot be read. *)
Definition bare : metadata := Metadata [] [] 0 1.
Definition broken_arrays : gmap nat (list string) := {[0 := ["missing.js"]]}.
End Sample.

(** ** Vocabulary of the further properties *)
Section Further.
Context `{Env}.

(** The URL the build of a task reports, when it succeeds. *)
Definition url_of (sh : Shaker) (it : item) : string :=
  match build (object it) (the_options sh) with
  | BuildOk url _ => url
  | BuildErr _ => EmptyString
  end.

(** Another schedule of the event loop: start a task whenever a worker is
    free, otherwise let the newest running build report back. *)
Definition report_last (sh : Shaker) (s : qstate) : option qstate :=
  match last (q_running s) with
  | Some it =>
      Some (match build (object it) (the_options sh) with
            | BuildOk url _ => finish sh s (removelast (q_running s)) it url
            | BuildErr err => throw sh s (removelast (q_running s)) it err
            end)
  | None => None
  end.

Definition turn_last (sh : Shaker) (s : qstate) : option qstate :=
  match q_tasks s with
  | t :: ts =>
      if q_workers s <? _parallel sh then Some (process s t ts)
      else report_last sh s
  | [] => report_last sh s
  end.

Fixpoint drive_last (n : nat) (sh : Shaker) (s : qstate) : qstate :=
  match n with
  | 0 => s
  | S n => match turn_last sh s with
           | Some s' => drive_last n sh s'
           | None => s
           end
  end.

(** How often an array sits in a list of places. *)
Definition places (l : loc) (ls : list loc) : nat :=
  length (filter (λ x, x = l) ls).

(** No star in a name. *)
Fixpoint no_star (s : string) : bool :=
  match s with
  | EmptyString => true
  | String c r => negb (Ascii.eqb c "*"%char) && no_star r
  end.

Definition is_image (b : builder) : bool :=
  match b with
  | Image _ _ => true
  | _ => false
  end.

(** The name of a gear task that minifies. *)
Definition is_minify (g : gear_step) : bool :=
  match g with
  | GTask name None => String.eqb name "jsminify" || String.eqb name "cssminify"
  | _ => false
  end.

Definition is_replace (g : gear_step) : bool :=
  match g with
  | GReplace _ => true
  | _ => false
  end.
End Further.

(** ** More applications to run the compiler against *)
Module Cases.
(** The sample application with a style sheet that lint objects to among
    the discovered files. *)
Definition dirty_css : Env :=
  Sample.env_with ["a.js"; "b.css"; "bad.css"] Sample.tree Sample.arrays.

(** The sample application with nothing but a view template in the
    client array of its mojit. *)
Definition html_only : gmap nat (list string) :=
  <[2 := ["mojits/Foo/views/index.mu.html"]]> Sample.arrays.

(** The sample application with a core that cannot be read. *)
Definition broken_core : gmap nat (list string) :=
  <[0 := ["missing.js"]]> Sample.arrays.

Definition one_worker : Shaker :=
  @new_Shaker Sample.env
    (ShakerConfig (Some "local") None None (Some 1) None (Some false)
                  None None None).
Definition four_workers : Shaker :=
  @new_Shaker Sample.env
    (ShakerConfig (Some "local") None None (Some 4) None (Some false)
                  None None None).

End Cases.

(** * Properties *)

(** ** The classifier *)
Section Classifier.
Context `{Env}.

Lemma entry_name_mk syncWrap file :
  entry_name (mk_entry syncWrap file) = file.
Proof. by destruct syncWrap. Qed.

Lemma filterFiles_from (syncWrap : bool) (files : list string)
    (acc : filtered (entry syncWrap)) :
  fold_left
    (λ acc file,
       let type := mime_lookup file in
       if String.eqb type "application/javascript"
       then Filtered (js acc ++ [mk_entry syncWrap file]) (css acc)
       else if String.eqb type "text/css"
       then Filtered (js acc) (css acc ++ [mk_entry syncWrap file])
       else acc)
    files acc
  = Filtered (js acc ++ map (mk_entry syncWrap) (filter is_js files))
             (css acc ++ map (mk_entry syncWrap) (filter is_css files)).
Proof.
  revert acc. induction files as [|file files IH]; intros acc; simpl.
  - destruct acc. by rewrite !app_nil_r.
  - rewrite IH, !filter_cons.
    destruct (String.eqb_spec (mime_lookup file) "application/javascript")
      as [Hjs|Hjs]; simpl.
    + rewrite (decide_True (P := is_js file)) by done.
      rewrite (decide_False (P := is_css file))
        by (unfold is_css; rewrite Hjs; discriminate).
      simpl. by rewrite <- app_assoc.
    + rewrite (decide_False (P := is_js file)) by done.
      destruct (String.eqb_spec (mime_lookup file) "text/css") as [Hcss|Hcss];
        simpl.
      * rewrite (decide_True (P := is_css file)) by done.
        simpl. by rewrite <- app_assoc.
      * by rewrite (decide_False (P := is_css file)) by done.
Qed.

Lemma filterFiles_filter (files : list string) (syncWrap : bool) :
  _filterFiles files syncWrap
  = Filtered (map (mk_entry syncWrap) (filter is_js files))
             (map (mk_entry syncWrap) (filter is_css files)).
Proof. unfold _filterFiles. by rewrite filterFiles_from. Qed.

Lemma filterFiles_js (files : list string) :
  js (_filterFiles files false) = filter is_js files.
Proof. rewrite filterFiles_filter. simpl. apply map_id. Qed.

Lemma filterFiles_css (files : list string) :
  css (_filterFiles files false) = filter is_css files.
Proof. rewrite filterFiles_filter. simpl. apply map_id. Qed.

Lemma filterFiles_names (files : list string) (syncWrap : bool) :
  map entry_name (js (_filterFiles files syncWrap)) = filter is_js files
  ∧ map entry_name (css (_filterFiles files syncWrap)) = filter is_css files.
Proof.
  rewrite filterFiles_filter. simpl. rewrite !map_map.
  split; (etrans; [apply map_ext; intros; apply entry_name_mk | apply map_id]).
Qed.
End Classifier.

(** ** Folding over the tree *)
Section Folds.
Context {A B C : Type}.

Lemma fold_left_flat_map (f : A → B → A) (g : C → list B) (xs : list C) (a : A) :
  fold_left f (flat_map g xs) a = fold_left (λ a x, fold_left f (g x) a) xs a.
Proof.
  revert a. induction xs as [|x xs IH]; intros a; simpl; [done|].
  by rewrite fold_left_app, IH.
Qed.

Lemma fold_left_same (f g : A → B → A) (xs : list B) (a : A) :
  (∀ a x, f a x = g a x) → fold_left f xs a = fold_left g xs a.
Proof.
  intros Hfg. revert a. induction xs as [|x xs IH]; intros a; simpl; [done|].
  by rewrite Hfg, IH.
Qed.

Lemma fold_left_fmap (f : A → B → A) (g : C → B) (xs : list C) (a : A) :
  fold_left f (map g xs) a = fold_left (λ a x, f a (g x)) xs a.
Proof. revert a. induction xs as [|x xs IH]; intros a; simpl; [done|]. apply IH. Qed.

Lemma fmap_flat_map (f : B → A) (g : C → list B) (xs : list C) :
  map f (flat_map g xs) = flat_map (λ x, map f (g x)) xs.
Proof. induction xs as [|x xs IH]; simpl; [done|]. by rewrite map_app, IH. Qed.

Lemma flat_map_perm (f g : C → list B) (xs : list C) :
  (∀ x, f x ≡ₚ g x) → flat_map f xs ≡ₚ flat_map g xs.
Proof.
  intros Hfg. induction xs as [|x xs IH]; simpl; [done|]. by rewrite Hfg, IH.
Qed.

Lemma flat_map_same (f g : C → list B) (xs : list C) :
  (∀ x, f x = g x) → flat_map f xs = flat_map g xs.
Proof.
  intros Hfg. induction xs as [|x xs IH]; simpl; [done|]. by rewrite Hfg, IH.
Qed.

Lemma flat_map_same_in (f g : C → list B) (xs : list C) :
  (∀ x, x ∈ xs → f x = g x) → flat_map f xs = flat_map g xs.
Proof.
  induction xs as [|x xs IH]; intros Hfg; simpl; [done|].
  rewrite Hfg, IH; [done| |]; intros; try apply Hfg; by constructor.
Qed.
End Folds.

(** ** The development rewrite *)
Section Rename.
Context `{Env}.

Lemma rename_items_upto (arr : list string) (k : nat) :
  k ≤ length arr →
  fold_left
    (λ arr item,
       match arr !! item with
       | Some file => <[item := core_getURL file]> arr
       | None => arr
       end)
    (seq 0 k) arr
  = map core_getURL (take k arr) ++ drop k arr.
Proof.
  induction k as [|k IH]; intros Hk.
  - by rewrite take_0, drop_0.
  - rewrite seq_S, fold_left_app, IH by lia. simpl.
    destruct (lookup_lt_is_Some_2 arr k) as [file Hfile]; [lia|].
    assert (length (map core_getURL (take k arr)) = k) as Hlen
      by (rewrite length_map, length_take; lia).
    rewrite lookup_app_r, Hlen, Nat.sub_diag by lia.
    rewrite (drop_S _ file) by done. simpl.
    rewrite insert_app_r_alt, Hlen, Nat.sub_diag by lia. simpl.
    rewrite (take_S_r _ _ file) by done.
    by rewrite map_app, <- app_assoc.
Qed.

Lemma rename_items_map (arr : list string) :
  rename_items arr = map core_getURL arr.
Proof.
  unfold rename_items. rewrite rename_items_upto by done.
  by rewrite firstn_all, drop_all, app_nil_r.
Qed.

Lemma rename_list_other (ls : list loc) (h : heap) (l : loc) :
  l ∉ ls → fold_left rename_list ls h !!! l = h !!! l.
Proof.
  revert h. induction ls as [|x ls IH]; intros h Hl; simpl; [done|].
  apply not_elem_of_cons in Hl as [Hne Hl]. rewrite IH by done. unfold rename_list.
  by apply lookup_total_insert_ne.
Qed.

Lemma rename_list_once (ls : list loc) (h : heap) (l : loc) :
  NoDup ls → l ∈ ls →
  fold_left rename_list ls h !!! l = map core_getURL (h !!! l).
Proof.
  revert h. induction ls as [|x ls IH]; intros h Hnd Hl; [set_solver|].
  apply NoDup_cons in Hnd as [Hx Hnd]. simpl.
  destruct (decide (l = x)) as [->|Hne].
  - rewrite rename_list_other by done. unfold rename_list.
    by rewrite lookup_total_insert_eq, rename_items_map.
  - apply elem_of_cons in Hl as [?|Hl]; [done|].
    rewrite IH by done. unfold rename_list.
    by rewrite lookup_total_insert_ne.
Qed.

(** The arrays in the order [_rename] walks them. *)
Lemma rename_walk (md : metadata) (h : heap) :
  _rename md h
  = fold_left rename_list
      (flat_map (λ mojit, flat_map (λ action, map snd (shaken action.2)
                                                ++ [client action.2]) mojit.2)
                (mojits md)
       ++ flat_map (λ action, map snd (shaken action.2) ++ [client action.2])
                   (app md)
       ++ [core md]) h.
Proof.
  unfold _rename.
  rewrite !fold_left_app, !fold_left_flat_map. simpl. f_equal.
  rewrite fold_left_fmap.
  assert (∀ h' (action : string * view),
            rename_view h' action.2
            = fold_left rename_list
                (map snd (shaken action.2) ++ [client action.2]) h') as Hview
    by (intros; by rewrite fold_left_app).
  rewrite (fold_left_same _ _ (app md) _ Hview). f_equal.
  apply fold_left_same. intros h' mojit.
  rewrite fold_left_flat_map, fold_left_fmap.
  apply fold_left_same, Hview.
Qed.

Lemma tree_leaves_locs (md : metadata) :
  map leaf_loc (tree_leaves md)
  = flat_map (λ mojit, flat_map (λ action, client action.2
                                             :: map snd (shaken action.2))
                                mojit.2) (mojits md)
    ++ flat_map (λ action, client action.2 :: map snd (shaken action.2))
                (app md).
Proof.
  assert (∀ mojit (action : string * view),
            map leaf_loc (view_leaves mojit action.1 action.2)
            = client action.2 :: map snd (shaken action.2)) as Hview.
  { intros mojit [name v]. unfold view_leaves. simpl. f_equal.
    rewrite map_map. by apply map_ext. }
  unfold tree_leaves, mojit_leaves.
  rewrite map_app, !fmap_flat_map. f_equal.
  - apply flat_map_same. intros mojit. rewrite fmap_flat_map.
    apply flat_map_same. intros action. apply Hview.
  - apply flat_map_same. intros action. apply Hview.
Qed.

Lemma rename_walk_leaves (md : metadata) :
  flat_map (λ mojit, flat_map (λ action, map snd (shaken action.2)
                                           ++ [client action.2]) mojit.2)
           (mojits md)
    ++ flat_map (λ action, map snd (shaken action.2) ++ [client action.2])
                (app md)
    ++ [core md]
  ≡ₚ core md :: map leaf_loc (tree_leaves md).
Proof.
  rewrite tree_leaves_locs, app_assoc, <- Permutation_cons_append.
  apply Permutation_skip, Permutation_app.
  - apply flat_map_perm. intros mojit. apply flat_map_perm. intros action.
    by rewrite <- Permutation_cons_append.
  - apply flat_map_perm. intros action. by rewrite <- Permutation_cons_append.
Qed.

(** What [_rename] leaves in every array of a tree. *)
Lemma rename_tree (md : metadata) (h : heap) :
  is_tree md →
  (∀ l, l ∈ core md :: map leaf_loc (tree_leaves md) →
        _rename md h !!! l = map core_getURL (h !!! l))
  ∧ _rename md h !!! images md = h !!! images md.
Proof.
  unfold is_tree, leaves. intros [Himg Hnd]%NoDup_cons.
  rewrite rename_walk. split.
  - intros l Hl. apply rename_list_once.
    + by rewrite rename_walk_leaves.
    + by rewrite rename_walk_leaves.
  - apply rename_list_other. by rewrite rename_walk_leaves.
Qed.
End Rename.

(** ** The planner *)
Section Planner.
Context `{Env}.

Lemma length_pos_false {X} (xs : list X) : (0 <? length xs) = false ↔ xs = [].
Proof. destruct xs; simpl; split; (done || lia || discriminate). Qed.

Lemma length_pos_true {X} (xs : list X) : (0 <? length xs) = true ↔ xs ≠ [].
Proof. destruct xs; simpl; split; (done || lia || discriminate). Qed.

Lemma queue_images_spec (md : metadata) (q : list item) (h : heap) :
  queue_images md (q, h)
  = (q ++ image_tasks md (h !!! images md), <[images md := []]> h).
Proof.
  unfold queue_images, truncate, image_tasks. simpl.
  generalize (h !!! images md). intros content. revert q.
  induction content as [|image content IH]; intros q; simpl.
  - by rewrite app_nil_r.
  - unfold push at 2. simpl. rewrite IH. by rewrite <- app_assoc.
Qed.

Lemma queue_core_spec (sh : Shaker) (md : metadata) (q : list item) (h : heap) :
  queue_core sh md (q, h)
  = (q ++ [core_task sh md (h !!! core md)], <[core md := []]> h).
Proof. done. Qed.

(** The walk over [mojits] and [app] is the walk over the leaves. *)
Lemma queue_view_leaves (sh : Shaker) (mojit : option string) (action : string)
    (v : view) (p : list item * heap) :
  fold_left (λ p lf, queue_leaf sh lf p) (view_leaves mojit action v) p
  = queue_view sh
      (leaf_client_name sh (Leaf KClient mojit action 0))
      (leaf_dim_name (Leaf KDim mojit action 0)) v p.
Proof.
  unfold view_leaves, queue_view. simpl. rewrite fold_left_fmap.
  by destruct mojit.
Qed.

Lemma queueRollups_leaves (sh : Shaker) (queue : list item) (md : metadata)
    (h : heap) :
  _queueRollups sh queue md h
  = fold_left (λ p lf, queue_leaf sh lf p) (tree_leaves md)
      (queue_core sh md
         (if _images sh then queue_images md (queue, h) else (queue, h))).
Proof.
  unfold _queueRollups, tree_leaves, queue_app, queue_mojits, mojit_leaves.
  rewrite fold_left_app, !fold_left_flat_map.
  etrans; [|symmetry; apply fold_left_same; intros p action;
            apply queue_view_leaves]. simpl.
  f_equal. apply fold_left_same. intros p mojit.
  rewrite fold_left_flat_map. apply fold_left_same. intros p' action.
  by rewrite queue_view_leaves.
Qed.

Lemma queue_leaf_tasks (sh : Shaker) (lf : leaf) (p : list item * heap) :
  (queue_leaf sh lf p).1 = p.1 ++ leaf_tasks sh lf (p.2 !!! leaf_loc lf).
Proof.
  destruct p as [q h].
  unfold leaf_tasks, queue_leaf, queue_client, queue_dim, truncate, push.
  simpl. rewrite lookup_total_singleton_eq.
  destruct (leaf_kind_of lf), (0 <? length (h !!! leaf_loc lf)); simpl;
    rewrite ?app_nil_r; try done.
  by destruct (0 <? length (js _)), (0 <? length (css _)); simpl;
    rewrite <- ?app_assoc, ?app_nil_r.
Qed.

Lemma queue_leaf_heap (sh : Shaker) (lf : leaf) (p : list item * heap) (l : loc) :
  (queue_leaf sh lf p).2 !!! l
  = if decide (l = leaf_loc lf) then [] else p.2 !!! l.
Proof.
  destruct p as [q h].
  unfold queue_leaf, queue_client, queue_dim. simpl.
  assert (∀ p' : list item * heap,
            (truncate (leaf_loc lf) p').2 !!! l
            = if decide (l = leaf_loc lf) then [] else p'.2 !!! l) as Htrunc.
  { intros [q' h']. unfold truncate. simpl. case_decide; subst.
    - apply lookup_total_insert_eq.
    - by apply lookup_total_insert_ne. }
  destruct (0 <? length (h !!! leaf_loc lf)) eqn:Hlen.
  - destruct (leaf_kind_of lf); rewrite Htrunc; [done|].
    by destruct (0 <? length (js _)), (0 <? length (css _)).
  - apply length_pos_false in Hlen.
    destruct (leaf_kind_of lf); case_decide; by subst.
Qed.

Lemma plan_leaves_heap (sh : Shaker) (lfs : list leaf) (p : list item * heap)
    (l : loc) :
  (fold_left (λ p lf, queue_leaf sh lf p) lfs p).2 !!! l
  = if decide (l ∈ map leaf_loc lfs) then [] else p.2 !!! l.
Proof.
  revert p. induction lfs as [|lf lfs IH]; intros p.
  - cbn [fold_left map]. case_decide as Hin; [|done].
    by apply elem_of_nil in Hin.
  - cbn [fold_left map]. rewrite IH, queue_leaf_heap.
    destruct (decide (l ∈ map leaf_loc lfs)) as [Hin|Hin];
      destruct (decide (l = leaf_loc lf)) as [Heq|Hne];
      destruct (decide (l ∈ leaf_loc lf :: map leaf_loc lfs)) as [Hc|Hc];
      try done; exfalso; revert Hc; rewrite elem_of_cons; tauto.
Qed.

Lemma plan_leaves_tasks (sh : Shaker) (lfs : list leaf) (p : list item * heap) :
  NoDup (map leaf_loc lfs) →
  (fold_left (λ p lf, queue_leaf sh lf p) lfs p).1
  = p.1 ++ flat_map (λ lf, leaf_tasks sh lf (p.2 !!! leaf_loc lf)) lfs.
Proof.
  revert p. induction lfs as [|lf lfs IH]; intros p Hnd; simpl.
  - by rewrite app_nil_r.
  - apply NoDup_cons in Hnd as [Hlf Hnd].
    rewrite IH, queue_leaf_tasks, <- app_assoc by done. do 2 f_equal.
    apply flat_map_same_in. intros lf' Hlf'.
    rewrite queue_leaf_heap, decide_False; [done|].
    intros Heq. apply Hlf. rewrite <- Heq. by apply list_elem_of_fmap_2.
Qed.

Lemma leaf_tasks_client (sh : Shaker) (lf : leaf) (content : list string) :
  leaf_kind_of lf = KClient →
  leaf_tasks sh lf content
  = if 0 <? length content
    then [Item (new_ClientRollup (leaf_client_name sh lf) core_getAppRoot
                                 content) (leaf_loc lf)]
    else [].
Proof.
  intros Hkind. unfold leaf_tasks, queue_leaf, queue_client. rewrite Hkind.
  simpl. rewrite lookup_total_singleton_eq.
  by destruct (0 <? length content).
Qed.

Lemma leaf_tasks_dim (sh : Shaker) (lf : leaf) (content : list string) :
  leaf_kind_of lf = KDim →
  leaf_tasks sh lf content
  = if 0 <? length content
    then (if 0 <? length (filter is_js content)
          then [Item (new_Rollup (_compiled_dir sh +:+ leaf_dim_name lf +:+ ".js")
                                 (filter is_js content)) (leaf_loc lf)]
          else [])
         ++ (if 0 <? length (filter is_css content)
             then [Item (new_Rollup (_compiled_dir sh +:+ leaf_dim_name lf
                                       +:+ ".css")
                                    (filter is_css content)) (leaf_loc lf)]
             else [])
    else [].
Proof.
  intros Hkind. unfold leaf_tasks, queue_leaf, queue_dim. rewrite Hkind.
  simpl. rewrite lookup_total_singleton_eq.
  destruct (0 <? length content); [|done].
  rewrite filterFiles_js, filterFiles_css.
  by destruct (0 <? length (filter is_js content)),
              (0 <? length (filter is_css content)).
Qed.

Lemma leaf_tasks_files (sh : Shaker) (lf : leaf) (content : list string) :
  Forall (λ it, files it = leaf_loc lf) (leaf_tasks sh lf content).
Proof.
  destruct (leaf_kind_of lf) eqn:Hkind.
  - rewrite leaf_tasks_client by done.
    destruct (0 <? length content); by repeat constructor.
  - rewrite leaf_tasks_dim by done.
    destruct (0 <? length content), (0 <? length (filter is_js content)),
             (0 <? length (filter is_css content)); by repeat constructor.
Qed.

Lemma leaf_tasks_nil (sh : Shaker) (lf : leaf) : leaf_tasks sh lf [] = [].
Proof.
  destruct (leaf_kind_of lf) eqn:Hkind.
  - by rewrite leaf_tasks_client.
  - by rewrite leaf_tasks_dim.
Qed.

(** What the planner queues for a tree, and what it leaves in the
    arrays. *)
Lemma plan_tree (sh : Shaker) (queue : list item) (md : metadata) (h : heap) :
  is_tree md →
  (_queueRollups sh queue md h).1 = queue ++ planned sh md h.
Proof.
  unfold is_tree, leaves. intros [Himg [Hcore Hnd]%NoDup_cons]%NoDup_cons.
  rewrite queueRollups_leaves, plan_leaves_tasks by done.
  unfold planned.
  assert (core md ≠ images md) as Hne by set_solver.
  destruct (_images sh).
  - rewrite queue_images_spec, queue_core_spec. simpl.
    rewrite lookup_total_insert_ne by done.
    rewrite <- !app_assoc. simpl. do 3 f_equal.
    apply flat_map_same_in. intros lf Hlf.
    rewrite !lookup_total_insert_ne; [done| |];
      intros Heq; [apply Himg|apply Hcore]; rewrite Heq;
      try (apply list_elem_of_further); by apply list_elem_of_fmap_2.
  - rewrite queue_core_spec. simpl. rewrite <- !app_assoc. simpl.
    do 2 f_equal. apply flat_map_same_in. intros lf Hlf.
    rewrite lookup_total_insert_ne; [done|].
    intros Heq. apply Hcore. rewrite Heq. by apply list_elem_of_fmap_2.
Qed.

Lemma plan_heap (sh : Shaker) (queue : list item) (md : metadata) (h : heap)
    (l : loc) :
  (_queueRollups sh queue md h).2 !!! l
  = if decide (l ∈ core md :: map leaf_loc (tree_leaves md)
               ∨ (l = images md ∧ _images sh = true))
    then [] else h !!! l.
Proof.
  rewrite queueRollups_leaves, plan_leaves_heap.
  destruct (decide (l ∈ map leaf_loc (tree_leaves md))) as [Hin|Hin].
  { rewrite decide_True; [done|]. left. by apply list_elem_of_further. }
  destruct (decide (l = core md)) as [->|Hcore].
  { rewrite decide_True by (left; constructor).
    destruct (_images sh); [rewrite queue_images_spec|];
      rewrite queue_core_spec; simpl; apply lookup_total_insert_eq. }
  destruct (_images sh) eqn:Himages.
  - rewrite queue_images_spec, queue_core_spec. simpl.
    rewrite lookup_total_insert_ne by done.
    destruct (decide (l = images md)) as [->|Himg].
    + rewrite decide_True by (by right). apply lookup_total_insert_eq.
    + rewrite lookup_total_insert_ne by done.
      rewrite decide_False; [done|].
      intros [[?|?]%elem_of_cons|[? _]]; done.
  - rewrite queue_core_spec. simpl.
    rewrite lookup_total_insert_ne by done.
    rewrite decide_False; [done|].
    intros [[?|?]%elem_of_cons|[_ ?]]; done.
Qed.

Lemma plan_leaves_extends (sh : Shaker) (lfs : list leaf) (p : list item * heap) :
  ∃ rest, (fold_left (λ p lf, queue_leaf sh lf p) lfs p).1 = p.1 ++ rest.
Proof.
  revert p. induction lfs as [|lf lfs IH]; intros p; simpl.
  - exists []. by rewrite app_nil_r.
  - destruct (IH (queue_leaf sh lf p)) as [rest ->].
    rewrite queue_leaf_tasks, <- app_assoc. by eexists.
Qed.

(** The core task is always queued, right after the image tasks. *)
Lemma core_bundle_queued (sh : Shaker) (md : metadata) (h : heap) :
  ∃ content rest,
    (_queueRollups sh [] md h).1
    = (if _images sh then image_tasks md (h !!! images md) else [])
        ++ Item (new_Rollup (_compiled_dir sh +:+ "core_{checksum}.js") content)
                (core md)
        :: rest.
Proof.
  rewrite queueRollups_leaves.
  destruct (plan_leaves_extends sh (tree_leaves md)
              (queue_core sh md
                 (if _images sh then queue_images md ([], h) else ([], h))))
    as [rest ->].
  destruct (_images sh).
  - rewrite queue_images_spec, queue_core_spec. simpl.
    rewrite <- app_assoc. simpl. by do 2 eexists.
  - rewrite queue_core_spec. simpl. by do 2 eexists.
Qed.
End Planner.

(** ** The queue *)
Section Queue.
Context `{Env}.

Lemma urls_for_snoc (l : loc) (done : list (item * string)) (it : item)
    (url : string) :
  urls_for l (done ++ [(it, url)])
  = urls_for l done ++ (if decide (files it = l) then [url] else []).
Proof.
  unfold urls_for. rewrite filter_app, map_app. f_equal.
  rewrite filter_cons, filter_nil. simpl. by case_decide.
Qed.

Lemma inv_start (sh : Shaker) (ts : list item) (h0 : heap) :
  inv sh ts h0 (start ts h0).
Proof.
  split; simpl; try done.
  - by rewrite app_nil_r.
  - intros l. by rewrite app_nil_r.
  - case_decide as Hc; [|done]. by destruct Hc as (_ & _ & ?).
Qed.

Lemma inv_step (sh : Shaker) (ts : list item) (h0 : heap) (s s' : qstate) :
  inv sh ts h0 s → step sh s s' → inv sh ts h0 s'.
Proof.
  intros [Hw Ht Hh Hd Hth Hb Ho Hwr Hc] Hstep.
  destruct Hstep as [s t ts' Htasks Hfree
                    |s pre it post url skipped Hrun Hbuild
                    |s pre it post err Hrun Hbuild].
  - split; simpl; try done.
    + rewrite length_app. simpl. lia.
    + rewrite Ht, Htasks. solve_Permutation.
    + rewrite Hwr.
      destruct (decide (q_tasks s = [] ∧ _)) as [(Hq & _ & _)|_];
        [congruence|].
      destruct (decide _) as [(_ & ? & _)|_]; [lia|done].
  - assert (length (q_running s) = S (length (pre ++ post))) as Hlen
      by (rewrite Hrun, !length_app; simpl; lia).
    assert (q_written s = []) as Hnone.
    { rewrite Hwr. rewrite decide_False; [done|]. intros (_ & ? & _). lia. }
    split; simpl.
    + lia.
    + rewrite Ht, Hrun, map_app. simpl. solve_Permutation.
    + intros l. rewrite urls_for_snoc, app_assoc, <- Hh.
      destruct (decide (files it = l)) as [Hl|Hl].
      * by rewrite <- Hl, lookup_total_insert_eq.
      * rewrite lookup_total_insert_ne by done. by rewrite app_nil_r.
    + apply Forall_app. split; [done|]. constructor; [|done]. by exists skipped.
    + done.
    + rewrite !map_app, Hb, !map_app. simpl. solve_Permutation.
    + apply Forall_app. split; [done|]. by repeat constructor.
    + rewrite Hnone.
      destruct (length (q_tasks s) + (q_workers s - 1) =? 0) eqn:Hdrain.
      * apply Nat.eqb_eq in Hdrain.
        rewrite decide_True; [done|]. split_and!.
        -- apply length_zero_iff_nil. lia.
        -- lia.
        -- by destruct (q_done s).
      * apply Nat.eqb_neq in Hdrain.
        rewrite decide_False; [done|]. intros (Hq & Hz & _).
        by rewrite Hq, Hz in Hdrain.
    + rewrite Hc, Hnone. by destruct (_ =? 0).
  - assert (length (q_running s) = S (length (pre ++ post))) as Hlen
      by (rewrite Hrun, !length_app; simpl; lia).
    split; simpl.
    + rewrite (length_app (q_thrown s)). simpl. lia.
    + rewrite Ht, Hrun, map_app. simpl. solve_Permutation.
    + done.
    + done.
    + apply Forall_app. split; [done|]. by repeat constructor.
    + rewrite !map_app, Hb, !map_app. simpl. solve_Permutation.
    + apply Forall_app. split; [done|]. by repeat constructor.
    + rewrite Hwr.
      destruct (decide _) as [(_ & ? & _)|_]; [lia|done].
    + done.
Qed.

Lemma inv_run (sh : Shaker) (ts : list item) (h0 : heap) (s : qstate) :
  rtc (step sh) (start ts h0) s → inv sh ts h0 s.
Proof.
  intros Hrun.
  apply (rtc_ind_r (R := step sh) (λ s, inv sh ts h0 s) (start ts h0));
    [apply inv_start| |done].
  intros y z _ Hstep IH. by eapply inv_step.
Qed.

(** Once [drain] has fired, everything has been built and pushed. *)
Lemma drained_all (sh : Shaker) (ts : list item) (h0 : heap) (s : qstate) :
  inv sh ts h0 s → q_written s ≠ [] →
  quiet s ∧ q_thrown s = [] ∧ map fst (q_done s) ≡ₚ ts
  ∧ q_written s = [q_heap s]
  ∧ q_calls s = [Call None (Some (q_heap s))].
Proof.
  intros [Hw Ht _ _ _ _ _ Hwr Hc] Hfired.
  rewrite Hwr in Hfired.
  destruct (decide _) as [(Hq & Hz & _)|_]; [|done].
  assert (q_running s = [] ∧ q_thrown s = []) as [Hrun Hth].
  { split; apply length_zero_iff_nil; lia. }
  split_and!; try done.
  - by rewrite Ht, Hq, Hrun, Hth.
  - by rewrite Hc, Hwr.
Qed.

Lemma written_once (sh : Shaker) (ts : list item) (h0 : heap) (s : qstate) :
  inv sh ts h0 s → length (q_written s) ≤ 1.
Proof.
  intros Hinv. rewrite (inv_written _ _ _ _ Hinv).
  destruct (decide _); simpl; lia.
Qed.

(** A worker that threw is never given back, so [drain] cannot fire. *)
Lemma thrown_never_drains (sh : Shaker) (ts : list item) (h0 : heap)
    (s : qstate) :
  inv sh ts h0 s → q_thrown s ≠ [] → q_written s = [] ∧ q_calls s = [].
Proof.
  intros [Hw _ _ _ _ _ _ Hwr Hc] Hth.
  assert (q_written s = []) as Hnone.
  { rewrite Hwr. destruct (decide _) as [(_ & Hz & _)|_]; [|done].
    destruct (q_thrown s); [done|]. simpl in Hw. lia. }
  by rewrite Hc, Hnone.
Qed.

Lemma calls_carry_no_error (sh : Shaker) (ts : list item) (h0 : heap)
    (s : qstate) :
  inv sh ts h0 s → Forall (λ c, call_err c = None) (q_calls s).
Proof.
  intros Hinv. rewrite (inv_calls _ _ _ _ Hinv).
  by apply Forall_fmap, Forall_true.
Qed.

Lemma builds_ok_elem (sh : Shaker) (ts : list item) (it : item) :
  builds_ok sh ts = true → it ∈ ts →
  ∃ url skipped, build (object it) (the_options sh) = BuildOk url skipped.
Proof.
  unfold builds_ok. rewrite forallb_forall. intros Hok Hit.
  specialize (Hok it). unfold build_ok in Hok.
  destruct (build _ _) as [err|url skipped]; [|by eauto].
  exfalso. by apply Bool.diff_false_true, Hok, list_elem_of_In.
Qed.

Lemma nothing_thrown (sh : Shaker) (ts : list item) (h0 : heap) (s : qstate) :
  builds_ok sh ts = true → inv sh ts h0 s → q_thrown s = [].
Proof.
  intros Hok Hinv. destruct (q_thrown s) as [|[it err] thrown] eqn:Hth; [done|].
  exfalso. pose proof (inv_thrown _ _ _ _ Hinv) as Herr.
  rewrite Hth in Herr. apply Forall_cons in Herr as [Herr _]. simpl in Herr.
  destruct (builds_ok_elem sh ts it Hok) as (url & skipped & Hbuild);
    [|congruence].
  rewrite (inv_tasks _ _ _ _ Hinv), Hth. simpl.
  do 2 (apply elem_of_app; right). by left.
Qed.

Lemma quiet_stuck (sh : Shaker) (s : qstate) : quiet s → stuck sh s.
Proof.
  intros [Hq Hrun] s' Hstep.
  destruct Hstep as [s t ts' Htasks _|s pre it post ? ? Hr _|s pre it post ? Hr _].
  - congruence.
  - rewrite Hrun in Hr. by destruct pre.
  - rewrite Hrun in Hr. by destruct pre.
Qed.

Lemma quiet_stays (sh : Shaker) (s s' : qstate) :
  quiet s → rtc (step sh) s s' → s' = s.
Proof.
  intros Hquiet Hrun. destruct Hrun as [|s s1 s' Hstep _]; [done|].
  by destruct (quiet_stuck sh s Hquiet s1).
Qed.

(** With a free worker for a waiting task and builds that succeed, the
    loop stops only when nothing is left. *)
Lemma stuck_quiet (sh : Shaker) (ts : list item) (h0 : heap) (s : qstate) :
  1 ≤ _parallel sh → builds_ok sh ts = true → inv sh ts h0 s →
  stuck sh s → quiet s.
Proof.
  intros Hpar Hok Hinv Hstuck.
  pose proof (nothing_thrown sh ts h0 s Hok Hinv) as Hth.
  destruct (q_running s) as [|it post] eqn:Hrun.
  - destruct (q_tasks s) as [|t ts'] eqn:Htasks; [done|].
    exfalso. apply (Hstuck (process s t ts')). constructor; [done|].
    rewrite (inv_workers _ _ _ _ Hinv), Hrun, Hth. simpl. lia.
  - exfalso.
    destruct (builds_ok_elem sh ts it Hok) as (url & skipped & Hbuild).
    { rewrite (inv_tasks _ _ _ _ Hinv), Hrun.
      apply elem_of_app. right. by left. }
    apply (Hstuck (finish sh s ([] ++ post) it url)).
    by apply step_built with skipped.
Qed.

Lemma step_turns (sh : Shaker) (s s' : qstate) :
  step sh s s' → turns_left s' < turns_left s.
Proof.
  unfold turns_left.
  intros [s0 t ts' Htasks _|s0 pre it post ? ? Hr _|s0 pre it post ? Hr _];
    simpl; rewrite ?Htasks, ?Hr, ?length_app; simpl; lia.
Qed.

Lemma nsteps_turns (sh : Shaker) (n : nat) (s s' : qstate) :
  nsteps (step sh) n s s' → n + turns_left s' ≤ turns_left s.
Proof.
  induction 1 as [|n s s1 s' Hstep _ IH]; [lia|].
  apply step_turns in Hstep. lia.
Qed.

(** Every run can be continued until the loop stops. *)
Lemma runs_out (sh : Shaker) (ts : list item) (h0 : heap) (s : qstate) :
  1 ≤ _parallel sh → builds_ok sh ts = true → inv sh ts h0 s →
  ∃ s', rtc (step sh) s s' ∧ quiet s'.
Proof.
  intros Hpar Hok. remember (turns_left s) as n eqn:Hn.
  revert s Hn. induction (lt_wf n) as [n _ IH]. intros s -> Hinv.
  pose proof (nothing_thrown sh ts h0 s Hok Hinv) as Hth.
  assert (∀ s1, step sh s s1 → ∃ s', rtc (step sh) s s' ∧ quiet s') as Hnext.
  { intros s1 Hstep.
    destruct (IH (turns_left s1) (step_turns sh s s1 Hstep) s1 eq_refl)
      as (s' & Hrun & Hquiet); [by eapply inv_step|].
    exists s'. split; [by eapply rtc_l|done]. }
  destruct (q_running s) as [|it post] eqn:Hrun.
  - destruct (q_tasks s) as [|t ts'] eqn:Htasks.
    + by exists s.
    + apply (Hnext (process s t ts')). constructor; [done|].
      rewrite (inv_workers _ _ _ _ Hinv), Hrun, Hth. simpl. lia.
  - destruct (builds_ok_elem sh ts it Hok) as (url & skipped & Hbuild).
    { rewrite (inv_tasks _ _ _ _ Hinv), Hrun.
      apply elem_of_app. right. by left. }
    apply (Hnext (finish sh s ([] ++ post) it url)).
    by apply step_built with skipped.
Qed.

(** When the loop has stopped with nothing left and nothing thrown,
    [drain] has fired. *)
Lemma quiet_drained (sh : Shaker) (ts : list item) (h0 : heap) (s : qstate) :
  ts ≠ [] → inv sh ts h0 s → quiet s → q_thrown s = [] →
  q_written s = [q_heap s] ∧ map fst (q_done s) ≡ₚ ts.
Proof.
  intros Hts Hinv [Hq Hrun] Hth.
  assert (map fst (q_done s) ≡ₚ ts) as Hperm.
  { by rewrite (inv_tasks _ _ _ _ Hinv), Hq, Hrun, Hth. }
  split; [|done].
  rewrite (inv_written _ _ _ _ Hinv), decide_True; [done|].
  split_and!; [done| |].
  - by rewrite (inv_workers _ _ _ _ Hinv), Hrun, Hth.
  - intros Hdone. rewrite Hdone in Hperm. simpl in Hperm.
    by apply Permutation_nil_l in Hperm.
Qed.

Lemma report_step (sh : Shaker) (s s' : qstate) :
  report sh s = Some s' → step sh s s'.
Proof.
  unfold report. destruct (q_running s) as [|it post] eqn:Hrun; [done|].
  intros [= <-].
  destruct (build (object it) (the_options sh)) as [err|url skipped] eqn:Hbuild.
  - by apply (step_threw sh s [] it post err).
  - by apply (step_built sh s [] it post url skipped).
Qed.

Lemma turn_step (sh : Shaker) (s s' : qstate) :
  turn sh s = Some s' → step sh s s'.
Proof.
  unfold turn. destruct (q_tasks s) as [|t ts'] eqn:Htasks;
    [apply report_step|].
  destruct (q_workers s <? _parallel sh) eqn:Hfree; [|apply report_step].
  intros [= <-]. constructor; [done|]. by apply Nat.ltb_lt.
Qed.

Lemma drive_run (n : nat) (sh : Shaker) (s : qstate) :
  rtc (step sh) s (drive n sh s).
Proof.
  revert s. induction n as [|n IH]; intros s; simpl; [done|].
  destruct (turn sh s) as [s'|] eqn:Hturn; [|done].
  eapply rtc_l; [by apply turn_step|apply IH].
Qed.
End Queue.

(** ** Which task writes where *)
Section Sinks.
Context `{Env}.

Lemma tasks_for_all (l : loc) (ts : list item) :
  Forall (λ it, files it = l) ts → tasks_for l ts = ts.
Proof.
  unfold tasks_for. induction 1 as [|it ts Hit _ IH]; [done|].
  by rewrite filter_cons_True, IH.
Qed.

Lemma tasks_for_none (l : loc) (ts : list item) :
  Forall (λ it, files it ≠ l) ts → tasks_for l ts = [].
Proof.
  unfold tasks_for. induction 1 as [|it ts Hit _ IH]; [done|].
  by rewrite filter_cons_False.
Qed.

Lemma tasks_for_cons (l : loc) (it : item) (ts : list item) :
  tasks_for l (it :: ts)
  = if decide (files it = l) then it :: tasks_for l ts else tasks_for l ts.
Proof. unfold tasks_for. by rewrite filter_cons. Qed.

Lemma tasks_for_app (l : loc) (ts ts' : list item) :
  tasks_for l (ts ++ ts') = tasks_for l ts ++ tasks_for l ts'.
Proof. apply filter_app. Qed.

Lemma tasks_for_leaf_tasks (sh : Shaker) (lf : leaf) (content : list string)
    (l : loc) :
  tasks_for l (leaf_tasks sh lf content)
  = if decide (leaf_loc lf = l) then leaf_tasks sh lf content else [].
Proof.
  pose proof (leaf_tasks_files sh lf content) as Hfiles.
  case_decide as Hl.
  - apply tasks_for_all. by rewrite <- Hl.
  - apply tasks_for_none. eapply Forall_impl; [done|]. simpl. congruence.
Qed.

Lemma tasks_for_leaves_other (sh : Shaker) (lfs : list leaf) (h : heap) (l : loc) :
  l ∉ map leaf_loc lfs →
  tasks_for l (flat_map (λ lf, leaf_tasks sh lf (h !!! leaf_loc lf)) lfs) = [].
Proof.
  induction lfs as [|lf lfs IH]; intros Hl; simpl; [done|].
  simpl in Hl. apply not_elem_of_cons in Hl as [Hne Hl].
  rewrite tasks_for_app, tasks_for_leaf_tasks, IH by done.
  by rewrite decide_False.
Qed.

Lemma tasks_for_leaves (sh : Shaker) (lfs : list leaf) (h : heap) (lf : leaf) :
  NoDup (map leaf_loc lfs) → lf ∈ lfs →
  tasks_for (leaf_loc lf)
    (flat_map (λ lf, leaf_tasks sh lf (h !!! leaf_loc lf)) lfs)
  = leaf_tasks sh lf (h !!! leaf_loc lf).
Proof.
  induction lfs as [|lf' lfs IH]; intros Hnd Hlf; [by apply elem_of_nil in Hlf|].
  simpl in *. apply NoDup_cons in Hnd as [Hfresh Hnd].
  rewrite tasks_for_app, tasks_for_leaf_tasks.
  apply elem_of_cons in Hlf as [->|Hlf].
  - rewrite decide_True, tasks_for_leaves_other by done. apply app_nil_r.
  - rewrite decide_False, IH; [done..|].
    intros Heq. apply Hfresh. rewrite Heq. by apply list_elem_of_fmap_2.
Qed.

Lemma image_tasks_files (md : metadata) (content : list string) :
  Forall (λ it, files it = images md) (image_tasks md content).
Proof. unfold image_tasks. by apply Forall_fmap, Forall_true. Qed.

(** In a tree every array has its own tasks. *)
Lemma planned_for_core (sh : Shaker) (md : metadata) (h : heap) :
  is_tree md →
  tasks_for (core md) (planned sh md h) = [core_task sh md (h !!! core md)].
Proof.
  unfold is_tree, leaves. intros [Himg [Hcore Hnd]%NoDup_cons]%NoDup_cons.
  apply not_elem_of_cons in Himg as [Hne Himg].
  unfold planned. rewrite tasks_for_app.
  rewrite (tasks_for_none _ (if _images sh then _ else _)).
  - simpl. rewrite tasks_for_cons, decide_True by done.
    by rewrite tasks_for_leaves_other.
  - destruct (_images sh); [|done].
    eapply Forall_impl; [apply image_tasks_files|]. simpl. congruence.
Qed.

Lemma planned_for_images (sh : Shaker) (md : metadata) (h : heap) :
  is_tree md →
  tasks_for (images md) (planned sh md h)
  = if _images sh then image_tasks md (h !!! images md) else [].
Proof.
  unfold is_tree, leaves. intros [Himg [Hcore Hnd]%NoDup_cons]%NoDup_cons.
  apply not_elem_of_cons in Himg as [Hne Himg].
  unfold planned. rewrite tasks_for_app.
  rewrite (tasks_for_all _ (if _images sh then _ else _)).
  - rewrite tasks_for_cons, decide_False by (simpl; congruence).
    by rewrite tasks_for_leaves_other, app_nil_r.
  - destruct (_images sh); [apply image_tasks_files|done].
Qed.

Lemma planned_for_leaf (sh : Shaker) (md : metadata) (h : heap) (lf : leaf) :
  is_tree md → lf ∈ tree_leaves md →
  tasks_for (leaf_loc lf) (planned sh md h)
  = leaf_tasks sh lf (h !!! leaf_loc lf).
Proof.
  unfold is_tree, leaves. intros [Himg [Hcore Hnd]%NoDup_cons]%NoDup_cons Hlf.
  apply not_elem_of_cons in Himg as [Hne Himg].
  assert (leaf_loc lf ∈ map leaf_loc (tree_leaves md)) as Hin
    by (by apply list_elem_of_fmap_2).
  unfold planned. rewrite tasks_for_app.
  rewrite (tasks_for_none _ (if _images sh then _ else _)).
  - simpl. rewrite tasks_for_cons, decide_False.
    + by apply tasks_for_leaves.
    + simpl. intros Heq. apply Hcore. by rewrite Heq.
  - destruct (_images sh); [|done].
    eapply Forall_impl; [apply image_tasks_files|]. simpl.
    intros it Hit Heq. apply Himg. by rewrite <- Hit, Heq.
Qed.

Lemma urls_for_length (l : loc) (done : list (item * string)) :
  length (urls_for l done) = length (tasks_for l (map fst done)).
Proof.
  unfold urls_for, tasks_for. rewrite length_map.
  induction done as [|[it url] done IH]; [done|]. simpl.
  rewrite !filter_cons. simpl. case_decide; simpl; by rewrite IH.
Qed.

Lemma urls_for_built (sh : Shaker) (ts : list item) (h0 : heap) (s : qstate)
    (l : loc) (u : string) :
  inv sh ts h0 s → u ∈ urls_for l (q_done s) →
  ∃ it skipped,
    it ∈ ts ∧ files it = l
    ∧ build (object it) (the_options sh) = BuildOk u skipped.
Proof.
  intros Hinv Hu. unfold urls_for in Hu.
  apply list_elem_of_fmap in Hu as ([it url] & -> & Hd).
  apply list_elem_of_filter in Hd as [Hl Hd]. simpl in *.
  pose proof (inv_done _ _ _ _ Hinv) as Hdone.
  rewrite Forall_forall in Hdone. destruct (Hdone _ Hd) as [skipped Hbuild].
  exists it, skipped. split_and!; [|done..].
  rewrite (inv_tasks _ _ _ _ Hinv). do 3 (apply elem_of_app; right).
  by apply (list_elem_of_fmap_2 fst) in Hd.
Qed.

(** The arrays at any moment of a build run over a tree. *)
Lemma run_heap (sh : Shaker) (md : metadata) (h : heap) (s : qstate) (l : loc) :
  is_tree md → rtc (step sh) (_compileRollups sh md h) s →
  inv sh (planned sh md h) (_queueRollups sh [] md h).2 s
  ∧ q_heap s !!! l
    = (if decide (l ∈ core md :: map leaf_loc (tree_leaves md)
                  ∨ (l = images md ∧ _images sh = true))
       then [] else h !!! l)
      ++ urls_for l (q_done s).
Proof.
  intros Htree Hrun.
  assert (inv sh (planned sh md h) (_queueRollups sh [] md h).2 s) as Hinv.
  { apply inv_run. unfold _compileRollups in Hrun.
    by rewrite plan_tree in Hrun. }
  split; [done|]. by rewrite (inv_heap _ _ _ _ Hinv), plan_heap.
Qed.

(** ... and once [drain] has fired. *)
Lemma drained_heap (sh : Shaker) (md : metadata) (h : heap) (s : qstate)
    (l : loc) :
  is_tree md → rtc (step sh) (_compileRollups sh md h) s →
  q_written s ≠ [] →
  length (urls_for l (q_done s)) = length (tasks_for l (planned sh md h)).
Proof.
  intros Htree Hrun Hfired.
  destruct (run_heap sh md h s l Htree Hrun) as [Hinv _].
  destruct (drained_all _ _ _ _ Hinv Hfired) as (_ & _ & Hperm & _).
  rewrite urls_for_length. unfold tasks_for. by rewrite Hperm.
Qed.
Lemma sync_names (fs : list string) : map rs_name (sync_files fs) = fs.
Proof. unfold sync_files. rewrite map_map. simpl. apply map_id. Qed.

Lemma inputs_sync (name : string) (fs : list string) :
  inputs (new_Rollup name fs) = fs.
Proof. apply sync_names. Qed.

Lemma inputs_client (name base : string) (fs : list string) :
  inputs (new_ClientRollup name base fs) = fs.
Proof. apply sync_names. Qed.

Lemma inputs_images (md : metadata) (content : list string) :
  flat_map (λ it, inputs (object it)) (image_tasks md content) = content.
Proof. induction content as [|image content IH]; simpl; by f_equal. Qed.

(** A builder reports the error of its gear queue as it is. *)
Lemma build_err_gear (b : builder) (o : options) (err : string) :
  build b o = BuildErr err → gear_run (pipeline b o).1 = GearErr err.
Proof.
  unfold build. destruct (pipeline b o) as [steps cfg]. simpl.
  destruct (gear_run steps); [|done]. by intros [= ->].
Qed.

Lemma step_thrown_grows (sh : Shaker) (s s' : qstate) :
  step sh s s' → q_thrown s `prefix_of` q_thrown s'.
Proof.
  intros [s0 t ts' _ _|s0 pre it post ? ? _ _|s0 pre it post err _ _]; simpl;
    try done.
  by apply prefix_app_r.
Qed.

Lemma thrown_grows (sh : Shaker) (s s' : qstate) :
  rtc (step sh) s s' → q_thrown s `prefix_of` q_thrown s'.
Proof.
  induction 1 as [|s s1 s' Hstep _ IH]; [done|].
  etrans; [by apply (step_thrown_grows sh)|done].
Qed.

(** No task is built more often than it was queued. *)
Lemma builds_within (sh : Shaker) (ts : list item) (h0 : heap) (s : qstate) :
  inv sh ts h0 s → map fst (q_builds s) ⊆+ map object ts.
Proof.
  intros Hinv. rewrite (inv_builds _ _ _ _ Hinv), (inv_tasks _ _ _ _ Hinv).
  apply fmap_submseteq.
  rewrite (Permutation_app_comm (map fst (q_done s))).
  do 2 apply submseteq_inserts_l. done.
Qed.

Lemma urls_for_nil (sh : Shaker) (ts : list item) (h0 : heap) (s : qstate)
    (l : loc) :
  inv sh ts h0 s → tasks_for l ts = [] → urls_for l (q_done s) = [].
Proof.
  intros Hinv Hnone. apply elem_of_nil_inv. intros u Hu.
  destruct (urls_for_built sh ts h0 s l u Hinv Hu) as (it & _ & Hit & Hl & _).
  assert (it ∈ tasks_for l ts) as Hin by (by apply list_elem_of_filter).
  rewrite Hnone in Hin. by apply elem_of_nil in Hin.
Qed.

(** The callback of a build run is called only when every build has
    succeeded. *)
Lemma calls_need_builds_ok (sh : Shaker) (ts : list item) (h0 : heap)
    (s : qstate) :
  inv sh ts h0 s → q_calls s ≠ [] → builds_ok sh ts = true.
Proof.
  intros Hinv Hcalls.
  assert (q_written s ≠ []) as Hfired.
  { intros Hnone. by rewrite (inv_calls _ _ _ _ Hinv), Hnone in Hcalls. }
  destruct (drained_all _ _ _ _ Hinv Hfired) as (_ & _ & Hperm & _).
  unfold builds_ok. apply forallb_forall. intros it Hit%list_elem_of_In.
  rewrite <- Hperm in Hit. apply list_elem_of_fmap in Hit as ([it' url] & -> & Hd).
  pose proof (inv_done _ _ _ _ Hinv) as Hdone. rewrite Forall_forall in Hdone.
  destruct (Hdone _ Hd) as [skipped Hbuild]. unfold build_ok. simpl in *.
  by rewrite Hbuild.
Qed.

Lemma done_urls (sh : Shaker) (ts : list item) (h0 : heap) (s : qstate) :
  inv sh ts h0 s → q_done s = map (λ it, (it, url_of sh it)) (map fst (q_done s)).
Proof.
  intros Hinv. pose proof (inv_done _ _ _ _ Hinv) as Hdone.
  induction Hdone as [|[it url] ds [skipped Hbuild] _ IH]; [done|].
  simpl in *. rewrite <- IH. unfold url_of. by rewrite Hbuild.
Qed.
Lemma urls_for_pairs (f : item → string) (l : loc) (xs : list item) :
  urls_for l (map (λ it, (it, f it)) xs) = map f (tasks_for l xs).
Proof.
  unfold urls_for, tasks_for. induction xs as [|it xs IH]; [done|].
  cbn [map]. rewrite !filter_cons. cbn [fst].
  case_decide; simpl; by rewrite IH.
Qed.

End Sinks.

(** The sample tree is a tree. *)
Lemma sample_is_tree : is_tree Sample.tree.
Proof. apply (bool_decide_unpack _). by vm_compute. Qed.


(** * The claims *)

(** C6.  The classifier returns the paths whose content type, inferred by
    [mime.lookup] from the extension, is JavaScript, and those whose type
    is CSS, each group in the order of the input; every path it keeps has
    one of the two types, so all others are dropped; the input is only
    read.  [a.js], [b.css], [c.png] give [a.js] and [b.css], and [c.png]
    is in neither group. *)
Theorem filterFiles_classifies `{Env} (files : list string) (syncWrap : bool) :
  map entry_name (js (_filterFiles files syncWrap)) = filter is_js files
  ∧ map entry_name (css (_filterFiles files syncWrap)) = filter is_css files
  ∧ Forall is_js (map entry_name (js (_filterFiles files syncWrap)))
  ∧ Forall is_css (map entry_name (css (_filterFiles files syncWrap)))
  ∧ @_filterFiles Sample.env ["a.js"; "b.css"; "c.png"] false
    = Filtered ["a.js"] ["b.css"].
Proof.
  destruct (filterFiles_names files syncWrap) as [Hjs Hcss].
  split_and!; [done..| | |reflexivity].
  - rewrite Hjs. apply Forall_forall. intros file Hfile.
    by apply list_elem_of_filter in Hfile as [? _].
  - rewrite Hcss. apply Forall_forall. intros file Hfile.
    by apply list_elem_of_filter in Hfile as [? _].
Qed.

(** C5, as the code has it.  The task planned for core, the first after
    the image tasks, is a rollup named by the compiled directory followed
    by [core_{checksum}.js], placeholder included. *)
Theorem core_bundle_name `{Env} (sh : Shaker) (md : metadata) (h : heap) :
  ∃ content rest,
    (_queueRollups sh [] md h).1
    = (if _images sh then image_tasks md (h !!! images md) else [])
        ++ Item (new_Rollup (_compiled_dir sh +:+ "core_{checksum}.js") content)
                (core md)
        :: rest.
Proof. apply core_bundle_queued. Qed.

(** C5 as stated fails: for the sample application the one task planned
    for core is named [assets/compiled/core_{checksum}.js], which is not
    the compiled directory followed by [core_{hash}.js]. *)
Lemma core_bundle_name_not_hash :
  map (λ it, builder_name (object it))
      (tasks_for (core Sample.tree)
         (@_queueRollups Sample.env Sample.build_shaker [] Sample.tree
                         Sample.arrays).1)
  = ["assets/compiled/core_{checksum}.js"]
  ∧ "assets/compiled/core_{checksum}.js"
    ≠ _compiled_dir Sample.build_shaker +:+ "core_{hash}.js".
Proof. split; [by vm_compute|]. vm_compute. discriminate. Qed.

(** C3, as the code has it.  After a development run over a tree the
    callback has been given the metadata once, every array has the length
    it had, and every element of the core, client and dimension arrays is
    [getURL] of the path that was at its position. *)
Theorem dev_run_rewrites `{Env} (sh : Shaker) (md : metadata) (h : heap) :
  is_tree md → _task sh = DEFAULT_TASK →
  ∃ h',
    q_calls (_runTask sh md h) = [Call None (Some h')]
    ∧ q_written (_runTask sh md h) = [h']
    ∧ Forall (λ l, length (h' !!! l) = length (h !!! l)) (leaves md)
    ∧ Forall (λ l, h' !!! l = map core_getURL (h !!! l))
             (core md :: map leaf_loc (tree_leaves md)).
Proof.
  intros Htree Htask. exists (_rename md h).
  unfold _runTask. rewrite Htask. simpl.
  destruct (rename_tree md h Htree) as [Hurl Himg].
  split_and!; try done.
  - unfold leaves. apply Forall_cons. split; [by rewrite Himg|].
    apply Forall_forall. intros l Hl. by rewrite Hurl, length_map.
  - apply Forall_forall. intros l Hl. by apply Hurl.
Qed.

Lemma dev_run_rewrites_witness :
  is_tree Sample.tree
  ∧ _task Sample.dev_shaker = DEFAULT_TASK
  ∧ ∃ h',
      q_calls (@_runTask Sample.env Sample.dev_shaker Sample.tree Sample.arrays)
      = [Call None (Some h')]
      ∧ q_written (@_runTask Sample.env Sample.dev_shaker Sample.tree
                             Sample.arrays) = [h']
      ∧ Forall (λ l, length (h' !!! l) = length (Sample.arrays !!! l))
               (leaves Sample.tree)
      ∧ Forall (λ l, h' !!! l = map (@core_getURL Sample.env) (Sample.arrays !!! l))
               (core Sample.tree :: map leaf_loc (tree_leaves Sample.tree)).
Proof.
  pose proof sample_is_tree as Htree.
  assert (_task Sample.dev_shaker = DEFAULT_TASK) as Htask by reflexivity.
  split_and!; [done..|].
  exact (@dev_run_rewrites Sample.env Sample.dev_shaker Sample.tree Sample.arrays
           Htree Htask).
Defined.

(** C3 as stated fails on the images array: after the development run of
    the sample application it still holds the local paths, not their
    URLs. *)
Lemma dev_run_keeps_images :
  let h' := @_rename Sample.env Sample.tree Sample.arrays in
  q_calls (@_runTask Sample.env Sample.dev_shaker Sample.tree Sample.arrays)
  = [Call None (Some h')]
  ∧ images Sample.tree ∈ leaves Sample.tree
  ∧ h' !!! images Sample.tree = ["img/logo.png"; "img/bg.gif"]
  ∧ map (@core_getURL Sample.env) (Sample.arrays !!! images Sample.tree)
    = ["/static/img/logo.png"; "/static/img/bg.gif"]
  ∧ h' !!! images Sample.tree
    ≠ map (@core_getURL Sample.env) (Sample.arrays !!! images Sample.tree).
Proof.
  split_and!; [by vm_compute|by left|by vm_compute|by vm_compute|].
  vm_compute. discriminate.
Qed.

(** ** The lint gate *)
Section Lint.
Context `{Env}.

Lemma gear_csslint_issue (lint_files : list readspec) :
  Exists (λ f, csslint (rs_name f) ≠ []) lint_files →
  gear_csslint lint_files = Some "[SHAKER] - Aborting".
Proof.
  induction 1 as [f fs Hf|f fs _ IH]; simpl; unfold lint_callback.
  - by destruct (csslint (rs_name f)).
  - rewrite IH. by destruct (0 <? length _).
Qed.

(** With an issue in some style sheet, nothing happens after the gate. *)
Lemma lint_issue_aborts (sh : Shaker) :
  core_isMojitApp = true → _lint sh = true →
  Exists (λ f, csslint (rs_name f) ≠ []) (css (_filterFiles core_getFiles true)) →
  run sh = idle (core_run (_compiled_dir sh)).2.
Proof.
  intros Happ Hlint Hissue. unfold run, _lintFiles.
  rewrite Happ, Hlint. cbn [negb]. destruct (core_run _) as [md h].
  cbn [fst snd]. rewrite gear_csslint_issue by done.
  by destruct (0 <? length _).
Qed.

(** Without style sheets the continuation is never called. *)
Lemma lint_no_css_stalls (sh : Shaker) :
  core_isMojitApp = true → _lint sh = true →
  css (_filterFiles core_getFiles true) = [] →
  run sh = idle (core_run (_compiled_dir sh)).2.
Proof.
  intros Happ Hlint Hcss. unfold run, _lintFiles.
  rewrite Happ, Hlint. cbn [negb]. destruct (core_run _) as [md h].
  cbn [fst snd]. by rewrite Hcss.
Qed.




End Lint.

(** C4, at the input where the code departs from it.  With [lint] left on
    and only scripts discovered, the lint gate finds no style sheet and
    returns without calling its continuation: nothing is rewritten, no
    task is queued, the callback of [run] is never called and the event
    loop has nothing to do; the same application compiled with [lint] off
    does go on to plan its bundles. *)
Theorem lint_gate_without_css :
  _lint Sample.lint_shaker = true
  ∧ css (@_filterFiles Sample.scripts_only (@core_getFiles Sample.scripts_only) true)
    = []
  ∧ @run Sample.scripts_only Sample.lint_shaker = idle Sample.arrays
  ∧ q_calls (@run Sample.scripts_only Sample.lint_shaker) = []
  ∧ @stuck Sample.scripts_only Sample.lint_shaker
           (@run Sample.scripts_only Sample.lint_shaker)
  ∧ @run Sample.scripts_only Sample.plain_shaker
    = @_compileRollups Sample.scripts_only Sample.plain_shaker Sample.tree
                       Sample.arrays.
Proof.
  assert (@run Sample.scripts_only Sample.lint_shaker = idle Sample.arrays)
    as Hrun by (by apply (@lint_no_css_stalls Sample.scripts_only)).
  split_and!; [done..| |done].
  rewrite Hrun. by apply quiet_stuck.
Qed.



(** C7, as the code has it.  In a tree, the planner queues no task for a
    dimension array whose files the classifier leaves nothing of, nor for
    a client array that holds no file (the planner does not classify
    client arrays);
    that array is empty when planning is over; and every task it does
    queue for a client or dimension array has been given files. *)
Theorem skip_empty `{Env} (sh : Shaker) (md : metadata) (h : heap) (lf : leaf) :
  is_tree md → lf ∈ tree_leaves md →
  Forall (λ it, inputs (object it) ≠ [])
         (tasks_for (leaf_loc lf) (_queueRollups sh [] md h).1)
  ∧ (match leaf_kind_of lf with
     | KDim => js (_filterFiles (h !!! leaf_loc lf) false) = []
               ∧ css (_filterFiles (h !!! leaf_loc lf) false) = []
     | KClient => h !!! leaf_loc lf = []
     end →
     tasks_for (leaf_loc lf) (_queueRollups sh [] md h).1 = []
     ∧ (_queueRollups sh [] md h).2 !!! leaf_loc lf = []).
Proof.
  intros Htree Hlf.
  rewrite plan_tree by done. simpl. rewrite planned_for_leaf by done.
  rewrite plan_heap, decide_True
    by (left; by apply list_elem_of_further, list_elem_of_fmap_2).
  destruct (leaf_kind_of lf) eqn:Hkind.
  - rewrite leaf_tasks_client by done. split.
    + destruct (0 <? length (h !!! leaf_loc lf)) eqn:Hlen; [|done].
      apply length_pos_true in Hlen.
      apply Forall_singleton. cbn [object]. by rewrite inputs_client.
    + by intros ->.
  - rewrite leaf_tasks_dim, filterFiles_js, filterFiles_css by done. split.
    + destruct (0 <? length (h !!! leaf_loc lf)); [|done].
      destruct (0 <? length (filter is_js _)) eqn:Hjs;
        destruct (0 <? length (filter is_css _)) eqn:Hcss;
        cbn [app]; repeat (apply Forall_cons; split); try apply Forall_nil;
        try done; cbn [object]; rewrite inputs_sync; by apply length_pos_true.
    + intros [-> ->]. simpl. by destruct (0 <? length _).
Qed.

Lemma skip_empty_witness :
  let lf := Leaf KDim (Some "Foo") "index" 4 in
  let p := @_queueRollups Sample.env Sample.build_shaker [] Sample.tree
                          Sample.arrays in
  is_tree Sample.tree
  ∧ lf ∈ tree_leaves Sample.tree
  ∧ Sample.arrays !!! 4 = ["d.png"]
  ∧ @js string (@_filterFiles Sample.env (Sample.arrays !!! 4) false) = []
  ∧ @css string (@_filterFiles Sample.env (Sample.arrays !!! 4) false) = []
  ∧ tasks_for 4 p.1 = []
  ∧ p.2 !!! 4 = [].
Proof.
  intros lf p.
  assert (lf ∈ tree_leaves Sample.tree) as Hlf
    by (apply (bool_decide_unpack _); by vm_compute).
  assert (@js string (@_filterFiles Sample.env (Sample.arrays !!! 4) false) = []
          ∧ @css string (@_filterFiles Sample.env (Sample.arrays !!! 4) false) = [])
    as Hnone by (by vm_compute).
  destruct (@skip_empty Sample.env Sample.build_shaker Sample.tree Sample.arrays
              lf sample_is_tree Hlf) as [_ Hskip].
  split_and!; [apply sample_is_tree|done|by vm_compute|apply Hnone..| |];
    by apply Hskip.
Defined.

(** C7 as stated fails for client arrays: the client array of the sample
    mojit, holding one view template, is empty after classification, yet
    the planner queues a client rollup for it. *)
Lemma client_list_not_classified :
  let lf := Leaf KClient (Some "Foo") "index" 2 in
  let p := @_queueRollups Sample.env Sample.build_shaker [] Sample.tree
                          Cases.html_only in
  is_tree Sample.tree
  ∧ lf ∈ tree_leaves Sample.tree
  ∧ Cases.html_only !!! 2 = ["mojits/Foo/views/index.mu.html"]
  ∧ @_filterFiles Sample.env (Cases.html_only !!! 2) false = Filtered [] []
  ∧ tasks_for 2 p.1
    = [Item (ClientRollup "assets/compiled/client_Foo_{checksum}.js" "/app"
               [ReadSpec "mojits/Foo/views/index.mu.html" true]) 2]
  ∧ tasks_for 2 p.1 ≠ [].
Proof.
  intros lf p. split; [apply sample_is_tree|].
  split; [apply (bool_decide_unpack _); by vm_compute|].
  split_and!; by vm_compute.
Qed.

(** C8.  Run the queue on any tasks.  At every moment [drain] has fired
    at most once, and if it has, no task is waiting or running, every task
    has been completed, and every array holds what it held at the start
    followed by the URLs its tasks pushed.  When there is a task, room for
    a worker, and every build succeeds: every run ends, within two turns
    per task; when it has ended [drain] has fired exactly once and every
    task is done; and a run that ends exists.  The queue of a build run is
    never empty.  (Two workers, five tasks and no delay are one
    instance.) *)
Theorem drain_fires_once `{Env} (sh : Shaker) (ts : list item) (h0 : heap) :
  (∀ s, rtc (step sh) (start ts h0) s →
        length (q_written s) ≤ 1
        ∧ length (q_calls s) = length (q_written s)
        ∧ (q_written s ≠ [] →
           quiet s ∧ map fst (q_done s) ≡ₚ ts ∧ q_written s = [q_heap s]
           ∧ ∀ l, q_heap s !!! l = h0 !!! l ++ urls_for l (q_done s)))
  ∧ (ts ≠ [] → 1 ≤ _parallel sh → builds_ok sh ts = true →
     (∀ n s, nsteps (step sh) n (start ts h0) s → n ≤ 2 * length ts)
     ∧ (∀ s, rtc (step sh) (start ts h0) s → stuck sh s →
             length (q_written s) = 1 ∧ length (q_done s) = length ts)
     ∧ (∃ s, rtc (step sh) (start ts h0) s ∧ stuck sh s))
  ∧ (∀ md h, _compileRollups sh md h
             = start (_queueRollups sh [] md h).1 (_queueRollups sh [] md h).2
             ∧ (_queueRollups sh [] md h).1 ≠ []).
Proof.
  split_and!.
  - intros s Hinv%inv_run. split_and!.
    + by eapply written_once.
    + by rewrite (inv_calls _ _ _ _ Hinv), length_map.
    + intros Hfired.
      destruct (drained_all _ _ _ _ Hinv Hfired) as (? & _ & ? & ? & _).
      split_and!; try done. apply (inv_heap _ _ _ _ Hinv).
  - intros Hts Hpar Hok. split_and!.
    + intros n s Hsteps%nsteps_turns. unfold turns_left in Hsteps.
      simpl in Hsteps. lia.
    + intros s Hinv%inv_run Hstuck.
      pose proof (stuck_quiet _ _ _ _ Hpar Hok Hinv Hstuck) as Hquiet.
      pose proof (nothing_thrown _ _ _ _ Hok Hinv) as Hth.
      destruct (quiet_drained _ _ _ _ Hts Hinv Hquiet Hth) as [-> Hperm].
      split; [done|]. by rewrite <- Hperm, length_map.
    + destruct (runs_out sh ts h0 (start ts h0) Hpar Hok (inv_start sh ts h0))
        as (s & Hrun & Hquiet).
      exists s. split; [done|]. by apply quiet_stuck.
  - intros md h. split; [done|].
    destruct (core_bundle_queued sh md h) as (content & rest & ->).
    by destruct (if _images sh then _ else _).
Qed.

Lemma drain_fires_once_witness :
  let sh := Sample.plain_shaker in
  let p := @_queueRollups Sample.env sh [] Sample.tree Sample.arrays in
  length p.1 = 5 ∧ _parallel sh = 2 ∧ _delay sh = 0
  ∧ p.1 ≠ [] ∧ 1 ≤ _parallel sh ∧ @builds_ok Sample.env sh p.1 = true
  ∧ (∀ n s, nsteps (@step Sample.env sh) n (start p.1 p.2) s → n ≤ 2 * length p.1)
  ∧ (∀ s, rtc (@step Sample.env sh) (start p.1 p.2) s → @stuck Sample.env sh s →
          length (q_written s) = 1 ∧ length (q_done s) = length p.1)
  ∧ (∃ s, rtc (@step Sample.env sh) (start p.1 p.2) s ∧ @stuck Sample.env sh s).
Proof.
  intros sh p.
  assert (p.1 ≠ []) as Hts by (by vm_compute).
  assert (1 ≤ _parallel sh) as Hpar by (vm_compute; lia).
  assert (@builds_ok Sample.env sh p.1 = true) as Hok by (by vm_compute).
  do 3 (split; [by vm_compute|]). do 3 (split; [done|]).
  exact (proj1 (proj2 (@drain_fires_once Sample.env sh p.1 p.2)) Hts Hpar Hok).
Defined.

(** C2, as the code has it.  When a build of a build run reports an
    error, the worker throws that very error, the one the gear queue
    ended with; the callback given to [run] has not been called and never
    will be, with that error or otherwise; the metadata has not been
    written and never will be; and no task is built more often than it
    was queued. *)
Theorem build_error_is_thrown `{Env} (sh : Shaker) (md : metadata) (h : heap)
    (s : qstate) (it : item) (err : string) :
  rtc (step sh) (_compileRollups sh md h) s →
  (it, err) ∈ q_thrown s →
  gear_run (pipeline (object it) (the_options sh)).1 = GearErr err
  ∧ ∀ s', rtc (step sh) s s' →
          (it, err) ∈ q_thrown s'
          ∧ q_calls s' = [] ∧ q_written s' = []
          ∧ map fst (q_builds s') ⊆+ map object (_queueRollups sh [] md h).1.
Proof.
  intros Hrun Hthrown. split.
  - apply inv_run in Hrun. pose proof (inv_thrown _ _ _ _ Hrun) as Herr.
    rewrite Forall_forall in Herr. by apply build_err_gear, (Herr _ Hthrown).
  - intros s' Hmore.
    assert ((it, err) ∈ q_thrown s') as Hstill.
    { eapply elem_of_prefix; [done|]. by eapply thrown_grows. }
    assert (inv sh (_queueRollups sh [] md h).1 (_queueRollups sh [] md h).2 s')
      as Hinv by (apply inv_run; by etrans).
    destruct (thrown_never_drains _ _ _ _ Hinv) as [Hwritten Hcalls].
    { intros Hnone. rewrite Hnone in Hstill. by apply elem_of_nil in Hstill. }
    split_and!; try done. by eapply builds_within.
Qed.

Lemma build_error_is_thrown_witness :
  let sh := Sample.plain_shaker in
  let it := core_task sh Sample.bare ["missing.js"] in
  let s := @drive Sample.env 2 sh
             (@_compileRollups Sample.env sh Sample.bare Sample.broken_arrays) in
  rtc (@step Sample.env sh)
      (@_compileRollups Sample.env sh Sample.bare Sample.broken_arrays) s
  ∧ (it, "ENOENT") ∈ q_thrown s
  ∧ @gear_run Sample.env (@pipeline Sample.env (object it) (the_options sh)).1
    = GearErr "ENOENT"
  ∧ ∀ s', rtc (@step Sample.env sh) s s' →
          (it, "ENOENT") ∈ q_thrown s'
          ∧ q_calls s' = [] ∧ q_written s' = []
          ∧ map fst (q_builds s')
            ⊆+ map object (@_queueRollups Sample.env sh [] Sample.bare
                                          Sample.broken_arrays).1.
Proof.
  intros sh it s.
  assert (rtc (@step Sample.env sh)
              (@_compileRollups Sample.env sh Sample.bare Sample.broken_arrays) s)
    as Hrun by apply drive_run.
  assert (q_thrown s = [(it, "ENOENT")]) as Hq by (by vm_compute).
  assert ((it, "ENOENT") ∈ q_thrown s) as Hthrown by (rewrite Hq; by left).
  do 2 (split; [done|]).
  exact (@build_error_is_thrown Sample.env sh Sample.bare
           Sample.broken_arrays s it "ENOENT" Hrun Hthrown).
Defined.

(** C2 as stated fails: compile a tree whose core cannot be read.  The
    build of the core task reports [ENOENT], a run throws it, and in no
    state of any run has the callback given to [run] been called at all,
    so the error never reaches it. *)
Lemma build_error_not_called_back :
  let sh := Sample.plain_shaker in
  let start := @_compileRollups Sample.env sh Sample.bare Sample.broken_arrays in
  q_tasks start = [core_task sh Sample.bare ["missing.js"]]
  ∧ @build Sample.env
      (object (core_task sh Sample.bare ["missing.js"]))
      (the_options sh) = BuildErr "ENOENT"
  ∧ q_thrown (@drive Sample.env 2 sh start)
    = [(core_task sh Sample.bare ["missing.js"], "ENOENT")]
  ∧ ∀ s, rtc (@step Sample.env sh) start s → q_calls s = [].
Proof.
  intros sh start. split_and!; [by vm_compute..|].
  intros s Hinv%inv_run. destruct (q_calls s) as [|c cs] eqn:Hcalls; [done|].
  assert (q_calls s ≠ []) as Hcalled by (by rewrite Hcalls).
  apply (calls_need_builds_ok _ _ _ _ Hinv) in Hcalled.
  by vm_compute in Hcalled.
Qed.

(** ** The fate of an array in a build run *)
Section Fates.
Context `{Env}.

Lemma consumed_intro (sh : Shaker) (md : metadata) (h : heap) (l : loc)
    (snapshot : list string) :
  is_tree md →
  l ∈ core md :: map leaf_loc (tree_leaves md)
  ∨ (l = images md ∧ _images sh = true) →
  flat_map (λ it, inputs (object it)) (tasks_for l (planned sh md h)) = snapshot →
  consumed sh md h l snapshot.
Proof.
  intros Htree Hl Hsnap. unfold consumed. rewrite plan_tree by done. simpl.
  rewrite plan_heap, decide_True by done. split_and!; try done.
  intros s Hrun. destruct (run_heap sh md h s l Htree Hrun) as [_ ->].
  by rewrite decide_True.
Qed.

Lemma untouched_intro (sh : Shaker) (md : metadata) (h : heap) (l : loc) :
  is_tree md →
  tasks_for l (planned sh md h) = [] →
  (_queueRollups sh [] md h).2 !!! l = h !!! l →
  untouched sh md h l.
Proof.
  intros Htree Hnone Hsame. unfold untouched.
  rewrite plan_tree by done. simpl. split_and!; try done.
  intros s Hrun. destruct (run_heap sh md h s l Htree Hrun) as [Hinv _].
  rewrite (inv_heap _ _ _ _ Hinv), Hsame.
  by rewrite (urls_for_nil _ _ _ _ _ Hinv Hnone), app_nil_r.
Qed.

(** What an array holds once [drain] has fired: what the planner left in
    it, then one URL for each task planned for it. *)
Lemma drained_array (sh : Shaker) (md : metadata) (h : heap) (s : qstate)
    (hf : heap) (l : loc) :
  is_tree md → rtc (step sh) (_compileRollups sh md h) s →
  q_calls s = [Call None (Some hf)] →
  q_written s = [hf]
  ∧ hf !!! l = (_queueRollups sh [] md h).2 !!! l ++ urls_for l (q_done s)
  ∧ length (urls_for l (q_done s)) = length (tasks_for l (planned sh md h)).
Proof.
  intros Htree Hrun Hcalls.
  destruct (run_heap sh md h s l Htree Hrun) as [Hinv _].
  assert (q_written s ≠ []) as Hfired.
  { intros Hnone. by rewrite (inv_calls _ _ _ _ Hinv), Hnone in Hcalls. }
  destruct (drained_all _ _ _ _ Hinv Hfired) as (_ & _ & _ & Hwritten & Hcalled).
  rewrite Hcalled in Hcalls. injection Hcalls as <-.
  split_and!; [done|apply (inv_heap _ _ _ _ Hinv)|by apply drained_heap].
Qed.

(** ... and which URLs: those that the builds of its tasks reported. *)
Lemma drained_urls (sh : Shaker) (md : metadata) (h : heap) (s : qstate)
    (hf : heap) (l : loc) :
  is_tree md → rtc (step sh) (_compileRollups sh md h) s →
  q_calls s = [Call None (Some hf)] →
  urls_for l (q_done s) ≡ₚ map (url_of sh) (tasks_for l (planned sh md h)).
Proof.
  intros Htree Hrun Hcalls.
  destruct (run_heap sh md h s l Htree Hrun) as [Hinv _].
  assert (q_written s ≠ []) as Hfired.
  { intros Hnone. by rewrite (inv_calls _ _ _ _ Hinv), Hnone in Hcalls. }
  destruct (drained_all _ _ _ _ Hinv Hfired) as (_ & _ & Hperm & _).
  rewrite (done_urls _ _ _ _ Hinv), urls_for_pairs.
  unfold tasks_for. by rewrite Hperm.
Qed.

End Fates.

(** C9.  In a tree, before any build is started the planner has dealt
    with every array: the images, when they are deployed, and core are
    consumed, their files handed to their tasks; a client or dimension
    array that holds files is consumed, handing on all its files if it is
    a client array and its scripts and style sheets if it is a dimension;
    an empty one, and the images when they are not deployed, are left
    untouched.  All along the run a consumed array holds only the URLs
    its completed tasks pushed and an untouched one what it held: none
    ever mixes files with URLs. *)
Theorem leaves_never_partial `{Env} (sh : Shaker) (md : metadata) (h : heap) :
  is_tree md →
  q_builds (_compileRollups sh md h) = []
  ∧ q_heap (_compileRollups sh md h) = (_queueRollups sh [] md h).2
  ∧ (if _images sh then consumed sh md h (images md) (h !!! images md)
     else untouched sh md h (images md))
  ∧ consumed sh md h (core md) (h !!! core md)
  ∧ Forall (λ lf,
              match h !!! leaf_loc lf with
              | [] => untouched sh md h (leaf_loc lf)
              | _ :: _ =>
                  consumed sh md h (leaf_loc lf)
                    (match leaf_kind_of lf with
                     | KClient => h !!! leaf_loc lf
                     | KDim => filter is_js (h !!! leaf_loc lf)
                                 ++ filter is_css (h !!! leaf_loc lf)
                     end)
              end)
           (tree_leaves md).
Proof.
  intros Htree. split_and!; try done.
  - destruct (_images sh) eqn:Himages.
    + apply consumed_intro; [done|by right|].
      rewrite planned_for_images, Himages by done. apply inputs_images.
    + apply untouched_intro; [done| |].
      * by rewrite planned_for_images, Himages.
      * rewrite plan_heap, decide_False; [done|].
        unfold is_tree, leaves in Htree. apply NoDup_cons in Htree as [Himg _].
        rewrite Himages. intros [?|[_ ?]]; done.
  - apply consumed_intro; [done|left; by left|].
    rewrite planned_for_core by done. cbn [flat_map core_task object].
    by rewrite inputs_sync, app_nil_r.
  - apply Forall_forall. intros lf Hlf.
    assert (leaf_loc lf ∈ core md :: map leaf_loc (tree_leaves md)) as Hin
      by (by apply list_elem_of_further, list_elem_of_fmap_2).
    destruct (h !!! leaf_loc lf) as [|file content] eqn:Hcontent.
    + apply untouched_intro; [done| |].
      * by rewrite planned_for_leaf, Hcontent, leaf_tasks_nil.
      * by rewrite plan_heap, decide_True by (by left).
    + apply consumed_intro; [done|by left|].
      rewrite planned_for_leaf, Hcontent by done.
      destruct (leaf_kind_of lf) eqn:Hkind.
      * rewrite leaf_tasks_client by done.
        cbn [length Nat.ltb Nat.leb flat_map object].
        by rewrite inputs_client, app_nil_r.
      * rewrite leaf_tasks_dim by done. cbn [length Nat.ltb Nat.leb].
        destruct (filter is_js (file :: content)) as [|j js] eqn:Hjs;
          destruct (filter is_css (file :: content)) as [|c cs] eqn:Hcss;
          simpl; rewrite ?sync_names, ?app_nil_r; done.
Qed.

Lemma leaves_never_partial_witness :
  let sh := Sample.build_shaker in
  is_tree Sample.tree
  ∧ q_builds (@_compileRollups Sample.env sh Sample.tree Sample.arrays) = []
  ∧ q_heap (@_compileRollups Sample.env sh Sample.tree Sample.arrays)
    = (@_queueRollups Sample.env sh [] Sample.tree Sample.arrays).2
  ∧ (if _images sh
     then @consumed Sample.env sh Sample.tree Sample.arrays (images Sample.tree)
            (Sample.arrays !!! images Sample.tree)
     else @untouched Sample.env sh Sample.tree Sample.arrays (images Sample.tree))
  ∧ @consumed Sample.env sh Sample.tree Sample.arrays (core Sample.tree)
      (Sample.arrays !!! core Sample.tree)
  ∧ Forall (λ lf,
              match Sample.arrays !!! leaf_loc lf with
              | [] => @untouched Sample.env sh Sample.tree Sample.arrays
                        (leaf_loc lf)
              | _ :: _ =>
                  @consumed Sample.env sh Sample.tree Sample.arrays (leaf_loc lf)
                    (match leaf_kind_of lf with
                     | KClient => Sample.arrays !!! leaf_loc lf
                     | KDim => filter (@is_js Sample.env)
                                      (Sample.arrays !!! leaf_loc lf)
                                 ++ filter (@is_css Sample.env)
                                           (Sample.arrays !!! leaf_loc lf)
                     end)
              end)
           (tree_leaves Sample.tree).
Proof.
  intros sh. split; [apply sample_is_tree|].
  exact (@leaves_never_partial Sample.env sh Sample.tree Sample.arrays
           sample_is_tree).
Defined.

(** C1, as the code has it.  When a build run over a tree has called back,
    the metadata has been written once; a core that held files holds
    exactly one URL; the images, when they are deployed, hold for each
    image the URL that the build of its image task reported, nothing
    else, and are as they were when not deployed; a client array that
    held files holds exactly one URL and an empty one is still empty; a
    dimension array holds one URL if it held scripts plus one if it held
    style sheets, so an empty one is still empty; and every URL in core,
    a client array, a dimension array or the deployed images is one that
    the build of a task planned for that array reported. *)
Theorem build_run_collapses `{Env} (sh : Shaker) (md : metadata) (h : heap)
    (s : qstate) (hf : heap) :
  is_tree md →
  rtc (step sh) (_compileRollups sh md h) s →
  q_calls s = [Call None (Some hf)] →
  q_written s = [hf]
  ∧ (h !!! core md ≠ [] → length (hf !!! core md) = 1)
  ∧ (if _images sh
     then length (hf !!! images md) = length (h !!! images md)
          ∧ hf !!! images md
            ≡ₚ map (λ image,
                      url_of sh
                        (Item (new_Image (IMAGES_DIR +:+ path_basename image) image)
                              (images md)))
                   (h !!! images md)
     else hf !!! images md = h !!! images md)
  ∧ Forall (λ lf,
              match leaf_kind_of lf with
              | KClient =>
                  (h !!! leaf_loc lf ≠ [] → length (hf !!! leaf_loc lf) = 1)
                  ∧ (h !!! leaf_loc lf = [] → hf !!! leaf_loc lf = [])
              | KDim =>
                  length (hf !!! leaf_loc lf)
                  = (if 0 <? length (filter is_js (h !!! leaf_loc lf))
                     then 1 else 0)
                    + (if 0 <? length (filter is_css (h !!! leaf_loc lf))
                       then 1 else 0)
                  ∧ (h !!! leaf_loc lf = [] → hf !!! leaf_loc lf = [])
              end)
           (tree_leaves md)
  ∧ Forall (λ l,
              Forall (λ u, ∃ it skipped,
                        it ∈ (_queueRollups sh [] md h).1 ∧ files it = l
                        ∧ build (object it) (the_options sh) = BuildOk u skipped)
                     (hf !!! l)
              ∧ hf !!! l
                ≡ₚ map (url_of sh) (tasks_for l (_queueRollups sh [] md h).1))
           ((if _images sh then [images md] else [])
              ++ core md :: map leaf_loc (tree_leaves md)).
Proof.
  intros Htree Hrun Hcalls.
  pose proof (λ l, drained_array sh md h s hf l Htree Hrun Hcalls) as Hall.
  pose proof (λ l, drained_urls sh md h s hf l Htree Hrun Hcalls) as Hurls.
  assert (∀ l, l ∈ core md :: map leaf_loc (tree_leaves md)
               ∨ (l = images md ∧ _images sh = true) →
               hf !!! l = urls_for l (q_done s)) as Hsink.
  { intros l Hl. destruct (Hall l) as (_ & -> & _).
    by rewrite plan_heap, decide_True. }
  split_and!.
  - by destruct (Hall 0) as [? _].
  - intros _. destruct (Hall (core md)) as (_ & _ & Hlen).
    rewrite Hsink, Hlen, planned_for_core by (done || left; by left). done.
  - destruct (_images sh) eqn:Himages.
    + rewrite Hsink by (by right). split.
      * rewrite (Hurls (images md)), planned_for_images, Himages by done.
        unfold image_tasks. by rewrite !length_map.
      * rewrite (Hurls (images md)), planned_for_images, Himages by done.
        unfold image_tasks. by rewrite map_map.
    + destruct (Hall (images md)) as (_ & -> & Hlen).
      rewrite planned_for_images, Himages in Hlen by done. rewrite plan_heap.
      unfold is_tree, leaves in Htree. apply NoDup_cons in Htree as [Himg _].
      rewrite decide_False by (rewrite Himages; intros [?|[_ ?]]; done).
      apply length_zero_iff_nil in Hlen. by rewrite Hlen, app_nil_r.
  - apply Forall_forall. intros lf Hlf.
    destruct (Hall (leaf_loc lf)) as (_ & _ & Hlen).
    rewrite planned_for_leaf in Hlen by done.
    rewrite Hsink
      by (left; by apply list_elem_of_further, list_elem_of_fmap_2).
    destruct (leaf_kind_of lf) eqn:Hkind.
    + rewrite leaf_tasks_client in Hlen by done. split.
      * intros Hfiles%length_pos_true. by rewrite Hlen, Hfiles.
      * intros Hnone. rewrite Hnone in Hlen. by apply length_zero_iff_nil.
    + rewrite leaf_tasks_dim in Hlen by done. split.
      * rewrite Hlen.
        destruct (0 <? length (h !!! leaf_loc lf)) eqn:Hfiles.
        -- rewrite length_app.
           by destruct (0 <? length (filter is_js _)),
                       (0 <? length (filter is_css _)).
        -- apply length_pos_false in Hfiles. by rewrite Hfiles.
      * intros Hnone. rewrite Hnone in Hlen. by apply length_zero_iff_nil.
  - apply Forall_forall. intros l Hl.
    assert (l ∈ core md :: map leaf_loc (tree_leaves md)
            ∨ (l = images md ∧ _images sh = true)) as Hl'.
    { apply elem_of_app in Hl as [Hl|Hl]; [|by left].
      destruct (_images sh); [|by apply elem_of_nil in Hl].
      apply list_elem_of_singleton in Hl. by right. }
    rewrite Hsink by done. split.
    + apply Forall_forall. intros u Hu.
      destruct (run_heap sh md h s l Htree Hrun) as [Hinv _].
      destruct (urls_for_built _ _ _ _ _ _ Hinv Hu) as (it & skipped & ? & ? & ?).
      exists it, skipped. by rewrite plan_tree.
    + by rewrite plan_tree.
Qed.

Lemma build_run_collapses_witness :
  let sh := Sample.build_shaker in
  let s := @drive Sample.env 20 sh
             (@_compileRollups Sample.env sh Sample.tree Sample.arrays) in
  let hf := q_heap s in
  is_tree Sample.tree
  ∧ rtc (@step Sample.env sh)
        (@_compileRollups Sample.env sh Sample.tree Sample.arrays) s
  ∧ q_calls s = [Call None (Some hf)]
  ∧ q_written s = [hf]
  ∧ (Sample.arrays !!! core Sample.tree ≠ [] →
     length (hf !!! core Sample.tree) = 1)
  ∧ (if _images sh
     then length (hf !!! images Sample.tree)
          = length (Sample.arrays !!! images Sample.tree)
          ∧ hf !!! images Sample.tree
            ≡ₚ map (λ image,
                      @url_of Sample.env sh
                        (Item (new_Image
                                 (IMAGES_DIR +:+ @path_basename Sample.env image)
                                 image)
                              (images Sample.tree)))
                   (Sample.arrays !!! images Sample.tree)
     else hf !!! images Sample.tree = Sample.arrays !!! images Sample.tree)
  ∧ Forall (λ lf,
              match leaf_kind_of lf with
              | KClient =>
                  (Sample.arrays !!! leaf_loc lf ≠ [] →
                   length (hf !!! leaf_loc lf) = 1)
                  ∧ (Sample.arrays !!! leaf_loc lf = [] →
                     hf !!! leaf_loc lf = [])
              | KDim =>
                  length (hf !!! leaf_loc lf)
                  = (if 0 <? length (filter (@is_js Sample.env)
                                            (Sample.arrays !!! leaf_loc lf))
                     then 1 else 0)
                    + (if 0 <? length (filter (@is_css Sample.env)
                                              (Sample.arrays !!! leaf_loc lf))
                       then 1 else 0)
                  ∧ (Sample.arrays !!! leaf_loc lf = [] →
                     hf !!! leaf_loc lf = [])
              end)
           (tree_leaves Sample.tree)
  ∧ Forall (λ l,
              Forall (λ u, ∃ it skipped,
                        it ∈ (@_queueRollups Sample.env sh [] Sample.tree
                                             Sample.arrays).1
                        ∧ files it = l
                        ∧ @build Sample.env (object it) (the_options sh)
                          = BuildOk u skipped)
                     (hf !!! l)
              ∧ hf !!! l
                ≡ₚ map (@url_of Sample.env sh)
                       (tasks_for l (@_queueRollups Sample.env sh [] Sample.tree
                                                    Sample.arrays).1))
           ((if _images sh then [images Sample.tree] else [])
              ++ core Sample.tree :: map leaf_loc (tree_leaves Sample.tree)).
Proof.
  intros sh s hf.
  assert (rtc (@step Sample.env sh)
              (@_compileRollups Sample.env sh Sample.tree Sample.arrays) s)
    as Hrun by apply drive_run.
  assert (q_calls s = [Call None (Some hf)]) as Hcalls by (by vm_compute).
  split; [apply sample_is_tree|]. do 2 (split; [done|]).
  exact (@build_run_collapses Sample.env sh Sample.tree Sample.arrays s hf
           sample_is_tree Hrun Hcalls).
Defined.

(** C1 as stated fails.  The build run of the sample application calls
    back with a dimension that held a script and a style sheet now holding
    two URLs, a dimension that held only an image now holding none, and
    two images replaced by two URLs. *)
Lemma build_run_not_one_url :
  let sh := Sample.build_shaker in
  let s := @drive Sample.env 20 sh
             (@_compileRollups Sample.env sh Sample.tree Sample.arrays) in
  is_tree Sample.tree
  ∧ rtc (@step Sample.env sh)
        (@_compileRollups Sample.env sh Sample.tree Sample.arrays) s
  ∧ q_calls s = [Call None (Some (q_heap s))]
  ∧ Sample.arrays !!! 3 = ["a.js"; "b.css"; "c.png"]
  ∧ q_heap s !!! 3 = ["/static/assets/compiled/Foo_index_{checksum}.js";
                      "/static/assets/compiled/Foo_index_{checksum}.css"]
  ∧ Sample.arrays !!! 4 = ["d.png"]
  ∧ q_heap s !!! 4 = []
  ∧ Sample.arrays !!! images Sample.tree = ["img/logo.png"; "img/bg.gif"]
  ∧ q_heap s !!! images Sample.tree = ["/static/assets/images/logo.png";
                                       "/static/assets/images/bg.gif"].
Proof.
  intros sh s.
  split; [apply sample_is_tree|]. split; [apply drive_run|].
  split_and!; by vm_compute.
Qed.

(** * Further properties *)

(** X1.  The constructor selects the development task exactly when the
    configuration has no task, an empty one, or [raw] itself ([local]
    becomes [write], any other name is kept); and whatever the
    configuration says, the root handed to the output task is the static
    root of the application. *)
Theorem new_Shaker_modes `{Env} (c : shaker_config) :
  (_task (new_Shaker c) = DEFAULT_TASK
   ↔ sc_task c = None ∨ sc_task c = Some EmptyString ∨ sc_task c = Some "raw")
  ∧ (_task (new_Shaker c) = "write"
     ↔ sc_task c = Some "local" ∨ sc_task c = Some "write")
  ∧ cfg_root (_config (new_Shaker c)) = core_getStaticRoot
  ∧ cfg_root (opt_config (the_options (new_Shaker c))) = core_getStaticRoot.
Proof.
  unfold new_Shaker, DEFAULT_TASK. cbn [_task _config the_options opt_config cfg_root].
  split_and!; try done.
  - destruct (sc_task c) as [[|a t]|]; cbn [nonempty].
    + split; [by right; left|done].
    + destruct (String.eqb_spec (String a t) "local") as [->|Hne].
      * split; [discriminate|]. intros [?|[?|?]]; discriminate.
      * split; [intros ->; by right; right|].
        intros [?|[?|?]]; congruence.
    + split; [by left|done].
  - destruct (sc_task c) as [[|a t]|]; cbn [nonempty].
    + split; [discriminate|]. intros [?|?]; discriminate.
    + destruct (String.eqb_spec (String a t) "local") as [->|Hne].
      * split; [by left|done].
      * split; [intros ->; by right|]. intros [?|?]; congruence.
    + split; [discriminate|]. intros [?|?]; discriminate.
Qed.

(** X4.  One lint issue in one discovered style sheet stops the run at
    the gate: nothing is rewritten, queued, built or written, the callback
    given to [run] is never called, not even with an error, and the event
    loop has nothing to do. *)
Theorem lint_issue_stops_run `{Env} (sh : Shaker) :
  core_isMojitApp = true → _lint sh = true →
  Exists (λ file, is_css file ∧ csslint file ≠ []) core_getFiles →
  run sh = idle (core_run (_compiled_dir sh)).2
  ∧ q_calls (run sh) = []
  ∧ ∀ s, rtc (step sh) (run sh) s → s = run sh.
Proof.
  intros Happ Hlint Hissue.
  assert (run sh = idle (core_run (_compiled_dir sh)).2) as Hrun.
  { apply lint_issue_aborts; try done.
    rewrite filterFiles_filter. simpl.
    apply Exists_exists in Hissue as (file & Hin & Hcss & Hbad).
    apply Exists_exists. exists (ReadSpec file true). split; [|done].
    apply (list_elem_of_fmap_2 (mk_entry true)).
    by apply list_elem_of_filter. }
  split_and!; [done|by rewrite Hrun|].
  intros s Hs. eapply quiet_stays; [|done]. by rewrite Hrun.
Qed.

Lemma lint_issue_stops_run_witness :
  @core_isMojitApp Cases.dirty_css = true
  ∧ _lint Sample.lint_shaker = true
  ∧ Exists (λ file, @is_css Cases.dirty_css file
                    ∧ @csslint Cases.dirty_css file ≠ [])
           (@core_getFiles Cases.dirty_css)
  ∧ @run Cases.dirty_css Sample.lint_shaker = idle Sample.arrays
  ∧ q_calls (@run Cases.dirty_css Sample.lint_shaker) = []
  ∧ ∀ s, rtc (@step Cases.dirty_css Sample.lint_shaker)
             (@run Cases.dirty_css Sample.lint_shaker) s →
         s = @run Cases.dirty_css Sample.lint_shaker.
Proof.
  assert (Exists (λ file, @is_css Cases.dirty_css file
                          ∧ @csslint Cases.dirty_css file ≠ [])
                 (@core_getFiles Cases.dirty_css)) as Hissue.
  { do 2 apply Exists_cons_tl. apply Exists_cons_hd. by split. }
  do 2 (split; [reflexivity|]). split; [done|].
  exact (@lint_issue_stops_run Cases.dirty_css Sample.lint_shaker
           eq_refl eq_refl Hissue).
Defined.

(** ** More on the development rewrite *)
Section RenameMore.
Context `{Env}.

Lemma places_cons (l x : loc) (ls : list loc) :
  places l (x :: ls) = (if decide (x = l) then 1 else 0) + places l ls.
Proof. unfold places. rewrite filter_cons. by case_decide. Qed.

Lemma rename_list_places (ls : list loc) (h : heap) (l : loc) :
  fold_left rename_list ls h !!! l
  = Nat.iter (places l ls) (map core_getURL) (h !!! l).
Proof.
  revert h. induction ls as [|x ls IH]; intros h; [done|].
  cbn [fold_left]. rewrite IH, places_cons. unfold rename_list.
  destruct (decide (x = l)) as [->|Hne].
  - rewrite lookup_total_insert_eq, rename_items_map.
    by rewrite <- Nat.iter_succ_r.
  - by rewrite lookup_total_insert_ne.
Qed.

Lemma iter_map_length (n : nat) (arr : list string) :
  length (Nat.iter n (map core_getURL) arr) = length arr.
Proof. induction n as [|n IH]; [done|]. simpl. by rewrite length_map. Qed.
End RenameMore.

(** X5.  For any metadata, tree or not, [_rename] applies [getURL] to the
    elements of an array once for every place the array sits in among
    core, the client arrays and the dimensions: an array outside them
    (the images) is left alone, an array sitting in two places is
    rewritten twice; and no array changes its length. *)
Theorem rename_once_per_place `{Env} (md : metadata) (h : heap) (l : loc) :
  _rename md h !!! l
  = Nat.iter (places l (core md :: map leaf_loc (tree_leaves md)))
             (map core_getURL) (h !!! l)
  ∧ length (_rename md h !!! l) = length (h !!! l).
Proof.
  assert (_rename md h !!! l
          = Nat.iter (places l (core md :: map leaf_loc (tree_leaves md)))
                     (map core_getURL) (h !!! l)) as Heq.
  { rewrite rename_walk, rename_list_places. f_equal.
    unfold places. by rewrite rename_walk_leaves. }
  split; [done|]. rewrite Heq. apply iter_map_length.
Qed.

(** X7.  Classifying two lists one after the other is classifying each
    and joining the groups; no path lands in both groups; and the groups
    together never hold more paths than the input. *)
Theorem filterFiles_app `{Env} (files files' : list string) (syncWrap : bool) :
  js (_filterFiles (files ++ files') syncWrap)
  = js (_filterFiles files syncWrap) ++ js (_filterFiles files' syncWrap)
  ∧ css (_filterFiles (files ++ files') syncWrap)
    = css (_filterFiles files syncWrap) ++ css (_filterFiles files' syncWrap)
  ∧ Forall (λ file, ¬ is_css file)
           (map entry_name (js (_filterFiles files syncWrap)))
  ∧ length (js (_filterFiles files syncWrap))
      + length (css (_filterFiles files syncWrap)) ≤ length files.
Proof.
  rewrite !filterFiles_filter. simpl. rewrite !filter_app, !map_app.
  split_and!; try done.
  - rewrite map_map. apply Forall_fmap, Forall_forall.
    intros file [Hjs _]%list_elem_of_filter. simpl.
    rewrite entry_name_mk. unfold is_js, is_css in *. rewrite Hjs. discriminate.
  - rewrite !length_map. induction files as [|file files IH]; [done|].
    rewrite !filter_cons.
    destruct (decide (is_js file)) as [Hjs|_];
      destruct (decide (is_css file)) as [Hcss|_]; simpl; try lia.
    unfold is_js, is_css in *. rewrite Hjs in Hcss. discriminate.
Qed.

(** X9.  Every builder ends its queue with the configured output task,
    given a copy of the configuration that carries the builder's name and
    the same root; an image is read in binary and is never stripped or
    minified, whatever the options say; a rollup and a client rollup are
    stripped once exactly when a non-empty strip pattern is set and
    minified once exactly when minify is set. *)
Theorem pipeline_shape `{Env} (b : builder) (o : options) :
  last (pipeline b o).1 = Some (GTask (opt_task o) (Some (pipeline b o).2))
  ∧ cfg_name (pipeline b o).2 = Some (builder_name b)
  ∧ cfg_root (pipeline b o).2 = cfg_root (opt_config o)
  ∧ cfg_rest (pipeline b o).2 = cfg_rest (opt_config o)
  ∧ cfg_encoding (pipeline b o).2
    = (if is_image b then Some "bin" else cfg_encoding (opt_config o))
  ∧ length (List.filter is_replace (pipeline b o).1)
    = (if is_image b then 0
       else match opt_strip o with
            | Some pat => if nonempty pat then 1 else 0
            | None => 0
            end)
  ∧ length (List.filter is_minify (pipeline b o).1)
    = (if is_image b then 0 else if opt_minify o then 1 else 0).
Proof.
  destruct b as [name file|name fs|name base fs]; simpl; unfold strip_steps;
    destruct (opt_strip o) as [pat|]; try destruct (nonempty pat);
    destruct (opt_minify o); simpl;
    try destruct (String.eqb (mime_lookup name) "application/javascript");
    by split_and!.
Qed.

(** ** More on the planner *)
Section PlannerMore.
Context `{Env}.

Lemma leaf_tasks_rollups (sh : Shaker) (lf : leaf) (content : list string) :
  Forall (λ it, is_image (object it) = false) (leaf_tasks sh lf content).
Proof.
  destruct (leaf_kind_of lf) eqn:Hkind.
  - rewrite leaf_tasks_client by done.
    destruct (0 <? length content); by repeat constructor.
  - rewrite leaf_tasks_dim by done.
    destruct (0 <? length content), (0 <? length (filter is_js content)),
             (0 <? length (filter is_css content)); by repeat constructor.
Qed.

Lemma plan_leaves_Forall (P : item → Prop) (sh : Shaker) (lfs : list leaf)
    (p : list item * heap) :
  (∀ lf content, lf ∈ lfs → Forall P (leaf_tasks sh lf content)) →
  ∃ rest,
    (fold_left (λ p lf, queue_leaf sh lf p) lfs p).1 = p.1 ++ rest
    ∧ Forall P rest.
Proof.
  revert p. induction lfs as [|lf lfs IH]; intros p HP; simpl.
  - exists []. by rewrite app_nil_r.
  - destruct (IH (queue_leaf sh lf p)) as (rest & -> & Hrest).
    { intros lf' content Hlf'. apply HP. by right. }
    rewrite queue_leaf_tasks, <- app_assoc. eexists. split; [done|].
    apply Forall_app. split; [|done]. apply HP. by left.
Qed.

Lemma replace_star_plain (a : string) : no_star a = true → replace_star a = a.
Proof.
  induction a as [|c a IH]; [done|]. simpl.
  destruct (Ascii.eqb c "*"); [done|]. simpl. intros Ha. by rewrite IH.
Qed.

Lemma replace_star_split (a b : string) :
  no_star a = true →
  replace_star (a +:+ "*" +:+ b) = a +:+ "default" +:+ b.
Proof.
  induction a as [|c a IH]; [done|]. simpl.
  destruct (Ascii.eqb c "*"); [done|]. simpl. intros Ha. by rewrite IH.
Qed.
End PlannerMore.

(** X10.  For any metadata and any queue, when the planner returns core
    and every client and dimension array are empty, the images array is
    empty when images are deployed, and every other array is as it was. *)
Theorem planner_empties `{Env} (sh : Shaker) (queue : list item) (md : metadata)
    (h : heap) (l : loc) :
  (_queueRollups sh queue md h).2 !!! l
  = if decide (l ∈ core md :: map leaf_loc (tree_leaves md)
               ∨ (l = images md ∧ _images sh = true))
    then [] else h !!! l.
Proof. apply plan_heap. Qed.

(** X11.  For any metadata, the planner keeps what is in the queue and
    appends: first, only when images are deployed, one image task for
    each path in the images array, in order, named by the images
    directory and the base name of the path and writing to the images
    array; then tasks none of which is an image task and each of which
    writes to core, a client array or a dimension. *)
Theorem planner_appends `{Env} (sh : Shaker) (queue : list item) (md : metadata)
    (h : heap) :
  ∃ rest,
    (_queueRollups sh queue md h).1
    = queue
        ++ (if _images sh
            then map (λ image,
                        Item (Image (IMAGES_DIR +:+ path_basename image) image)
                             (images md))
                     (h !!! images md)
            else [])
        ++ rest
    ∧ Forall (λ it, is_image (object it) = false
                    ∧ files it ∈ core md :: map leaf_loc (tree_leaves md))
             rest.
Proof.
  rewrite queueRollups_leaves.
  destruct (plan_leaves_Forall
              (λ it, is_image (object it) = false
                     ∧ files it ∈ core md :: map leaf_loc (tree_leaves md))
              sh (tree_leaves md)
              (queue_core sh md
                 (if _images sh then queue_images md (queue, h) else (queue, h))))
    as (rest & -> & Hrest).
  { intros lf content Hlf. apply Forall_forall. intros it Hit.
    pose proof (leaf_tasks_rollups sh lf content) as Hroll.
    pose proof (leaf_tasks_files sh lf content) as Hfiles.
    rewrite Forall_forall in Hroll, Hfiles. split; [by apply Hroll|].
    rewrite (Hfiles _ Hit). by apply list_elem_of_further, list_elem_of_fmap_2. }
  destruct (_images sh).
  - rewrite queue_images_spec, queue_core_spec. simpl.
    rewrite <- !app_assoc. eexists. split; [done|].
    simpl. apply Forall_cons. split; [|done]. split; [done|by left].
  - rewrite queue_core_spec. simpl.
    rewrite <- !app_assoc. eexists. split; [done|].
    simpl. apply Forall_cons. split; [|done]. split; [done|by left].
Qed.

(** X12.  [replace] with a string pattern replaces the first star only: a
    name without a star is kept, and in a name with one the first star
    becomes [default] while later ones stay; so the dimension bundles of
    an action [a*b] are named after [adefaultb], for a mojit and for the
    application alike, while the client bundle of the application keeps
    the action as it is. *)
Theorem star_becomes_default `{Env} (sh : Shaker) (mojit a b : string) :
  no_star a = true →
  replace_star a = a
  ∧ replace_star (a +:+ "*" +:+ b) = a +:+ "default" +:+ b
  ∧ mojit_dim_name mojit (a +:+ "*" +:+ b)
    = mojit +:+ "_" +:+ (a +:+ "default" +:+ b) +:+ "_{checksum}"
  ∧ app_dim_name (a +:+ "*" +:+ b)
    = "app_" +:+ (a +:+ "default" +:+ b) +:+ "_{checksum}"
  ∧ app_client_name sh (a +:+ "*" +:+ b)
    = _compiled_dir sh +:+ "appclient_" +:+ (a +:+ "*" +:+ b)
        +:+ "_{checksum}.js".
Proof.
  intros Ha. unfold mojit_dim_name, app_dim_name, app_client_name.
  rewrite replace_star_split by done. split_and!; try done.
  by apply replace_star_plain.
Qed.

Lemma star_becomes_default_witness :
  no_star "view" = true
  ∧ replace_star "view" = "view"
  ∧ replace_star "view**" = "viewdefault*"
  ∧ mojit_dim_name "Foo" "view**" = "Foo_viewdefault*_{checksum}"
  ∧ app_dim_name "view**" = "app_viewdefault*_{checksum}"
  ∧ app_client_name Sample.build_shaker "view**"
    = "assets/compiled/appclient_view**_{checksum}.js".
Proof.
  split; [reflexivity|].
  exact (@star_becomes_default Sample.env Sample.build_shaker "Foo" "view" "*"
           eq_refl).
Defined.

(** X13.  In a tree, the tasks that write to a client array are: none
    when it is empty, otherwise one client rollup of all its files, based
    at the application root; and those that write to a dimension are:
    none when it is empty, otherwise a rollup of its scripts named
    [.js], if it has scripts, followed by a rollup of its style sheets
    named [.css], if it has style sheets. *)
Theorem leaf_bundles `{Env} (sh : Shaker) (md : metadata) (h : heap) (lf : leaf) :
  is_tree md → lf ∈ tree_leaves md →
  tasks_for (leaf_loc lf) (_queueRollups sh [] md h).1
  = match leaf_kind_of lf with
    | KClient =>
        if 0 <? length (h !!! leaf_loc lf)
        then [Item (new_ClientRollup (leaf_client_name sh lf) core_getAppRoot
                                     (h !!! leaf_loc lf)) (leaf_loc lf)]
        else []
    | KDim =>
        if 0 <? length (h !!! leaf_loc lf)
        then (if 0 <? length (filter is_js (h !!! leaf_loc lf))
              then [Item (new_Rollup
                            (_compiled_dir sh +:+ leaf_dim_name lf +:+ ".js")
                            (filter is_js (h !!! leaf_loc lf))) (leaf_loc lf)]
              else [])
             ++ (if 0 <? length (filter is_css (h !!! leaf_loc lf))
                 then [Item (new_Rollup
                               (_compiled_dir sh +:+ leaf_dim_name lf +:+ ".css")
                               (filter is_css (h !!! leaf_loc lf))) (leaf_loc lf)]
                 else [])
        else []
    end.
Proof.
  intros Htree Hlf. rewrite plan_tree by done. simpl.
  rewrite planned_for_leaf by done.
  destruct (leaf_kind_of lf) eqn:Hkind.
  - by apply leaf_tasks_client.
  - by apply leaf_tasks_dim.
Qed.

Lemma leaf_bundles_witness :
  let lf := Leaf KDim (Some "Foo") "index" 3 in
  is_tree Sample.tree
  ∧ lf ∈ tree_leaves Sample.tree
  ∧ tasks_for 3 (@_queueRollups Sample.env Sample.build_shaker [] Sample.tree
                                Sample.arrays).1
    = [Item (new_Rollup "assets/compiled/Foo_index_{checksum}.js" ["a.js"]) 3;
       Item (new_Rollup "assets/compiled/Foo_index_{checksum}.css" ["b.css"]) 3].
Proof.
  intros lf.
  assert (lf ∈ tree_leaves Sample.tree) as Hlf
    by (apply (bool_decide_unpack _); by vm_compute).
  split; [apply sample_is_tree|]. split; [done|].
  etrans; [exact (@leaf_bundles Sample.env Sample.build_shaker Sample.tree
                    Sample.arrays lf sample_is_tree Hlf)|].
  by vm_compute.
Defined.

(** ** More on the queue *)
Section QueueMore.
Context `{Env}.

Lemma report_last_step (sh : Shaker) (s s' : qstate) :
  report_last sh s = Some s' → step sh s s'.
Proof.
  unfold report_last. destruct (last (q_running s)) as [it|] eqn:Hlast; [|done].
  apply last_Some in Hlast as [pre Hrun]. rewrite Hrun, removelast_last.
  intros [= <-].
  destruct (build (object it) (the_options sh)) as [err|url skipped] eqn:Hbuild.
  - pose proof (step_threw sh s pre it [] err Hrun Hbuild) as Hstep.
    by rewrite app_nil_r in Hstep.
  - pose proof (step_built sh s pre it [] url skipped Hrun Hbuild) as Hstep.
    by rewrite app_nil_r in Hstep.
Qed.

Lemma turn_last_step (sh : Shaker) (s s' : qstate) :
  turn_last sh s = Some s' → step sh s s'.
Proof.
  unfold turn_last. destruct (q_tasks s) as [|t ts'] eqn:Htasks;
    [apply report_last_step|].
  destruct (q_workers s <? _parallel sh) eqn:Hfree; [|apply report_last_step].
  intros [= <-]. constructor; [done|]. by apply Nat.ltb_lt.
Qed.

Lemma drive_last_run (n : nat) (sh : Shaker) (s : qstate) :
  rtc (step sh) s (drive_last n sh s).
Proof.
  revert s. induction n as [|n IH]; intros s; simpl; [done|].
  destruct (turn_last sh s) as [s'|] eqn:Hturn; [|done].
  eapply rtc_l; [by apply turn_last_step|apply IH].
Qed.

Lemma workers_step (sh : Shaker) (s s' : qstate) :
  step sh s s' → q_workers s ≤ _parallel sh → q_workers s' ≤ _parallel sh.
Proof.
  intros [s0 t ts' _ Hfree|s0 pre it post ? ? _ _|s0 pre it post ? _ _]; simpl;
    lia.
Qed.

Lemma workers_run (sh : Shaker) (ts : list item) (h0 : heap) (s : qstate) :
  rtc (step sh) (start ts h0) s → q_workers s ≤ _parallel sh.
Proof.
  intros Hrun.
  apply (rtc_ind_r (R := step sh) (λ s, q_workers s ≤ _parallel sh)
                   (start ts h0)); [simpl; lia| |done].
  intros y z _ Hstep IH. by eapply workers_step.
Qed.

(** The tasks leave the queue from the front. *)
Lemma fifo_step (sh : Shaker) (ts : list item) (s s' : qstate) :
  step sh s s' →
  (∃ started, ts = started ++ q_tasks s
              ∧ length started
                = length (q_running s) + length (q_thrown s) + length (q_done s)) →
  ∃ started, ts = started ++ q_tasks s'
             ∧ length started
               = length (q_running s') + length (q_thrown s') + length (q_done s').
Proof.
  intros [s0 t ts' Htasks _|s0 pre it post ? ? Hr _|s0 pre it post ? Hr _]
         (started & Hts & Hlen); simpl.
  - exists (started ++ [t]). rewrite Htasks in Hts.
    rewrite <- app_assoc. split; [done|]. rewrite !length_app. simpl. lia.
  - exists started. split; [done|].
    rewrite Hr in Hlen. rewrite !length_app in *. simpl in *. lia.
  - exists started. split; [done|].
    rewrite Hr in Hlen. rewrite !length_app in *. simpl in *. lia.
Qed.

End QueueMore.

(** X14.  At every moment of a run of the queue, the workers taken are
    the builds in flight together with the builds that threw, and they
    never exceed the configured parallelism: a build that threw keeps its
    worker, and no more than [_parallel] builds are ever in flight. *)
Theorem concurrency_bounded `{Env} (sh : Shaker) (ts : list item) (h0 : heap)
    (s : qstate) :
  rtc (step sh) (start ts h0) s →
  q_workers s = length (q_running s) + length (q_thrown s)
  ∧ q_workers s ≤ _parallel sh
  ∧ length (q_running s) ≤ _parallel sh.
Proof.
  intros Hrun. pose proof (workers_run sh ts h0 s Hrun) as Hle.
  apply inv_run in Hrun. pose proof (inv_workers _ _ _ _ Hrun) as Hw.
  split_and!; [done..|lia].
Qed.

Lemma concurrency_bounded_witness :
  let sh := Sample.build_shaker in
  let p := @_queueRollups Sample.env sh [] Sample.tree Sample.arrays in
  let s := @drive Sample.env 3 sh (start p.1 p.2) in
  rtc (@step Sample.env sh) (start p.1 p.2) s
  ∧ length (q_tasks s) = 5 ∧ _parallel sh = 2
  ∧ q_workers s = length (q_running s) + length (q_thrown s)
  ∧ q_workers s ≤ _parallel sh
  ∧ length (q_running s) ≤ _parallel sh.
Proof.
  intros sh p s.
  assert (rtc (@step Sample.env sh) (start p.1 p.2) s) as Hrun
    by apply drive_run.
  split; [done|]. do 2 (split; [by vm_compute|]).
  exact (@concurrency_bounded Sample.env sh p.1 p.2 s Hrun).
Defined.

(** X15.  Tasks are started in the order they were queued: at every
    moment the tasks still waiting are a tail of the queue as it was
    filled, and the tasks before it are exactly those running, thrown or
    done. *)
Theorem tasks_start_in_order `{Env} (sh : Shaker) (ts : list item) (h0 : heap)
    (s : qstate) :
  rtc (step sh) (start ts h0) s →
  ∃ started,
    ts = started ++ q_tasks s
    ∧ started ≡ₚ q_running s ++ map fst (q_thrown s) ++ map fst (q_done s).
Proof.
  intros Hrun.
  assert (∃ started,
            ts = started ++ q_tasks s
            ∧ length started
              = length (q_running s) + length (q_thrown s) + length (q_done s))
    as (started & Hts & _).
  { apply (rtc_ind_r (R := step sh)
             (λ s, ∃ started,
                     ts = started ++ q_tasks s
                     ∧ length started
                       = length (q_running s) + length (q_thrown s)
                         + length (q_done s))
             (start ts h0)); [by exists []| |done].
    intros y z _ Hstep IH. by eapply fifo_step. }
  exists started. split; [done|].
  apply inv_run in Hrun. pose proof (inv_tasks _ _ _ _ Hrun) as Hperm.
  rewrite Hts in Hperm at 1.
  rewrite (Permutation_app_comm (q_tasks s)), <- !app_assoc in Hperm.
  rewrite !app_assoc in Hperm. apply Permutation_app_inv_r in Hperm.
  by rewrite <- !app_assoc in Hperm.
Qed.

Lemma tasks_start_in_order_witness :
  let sh := Sample.build_shaker in
  let p := @_queueRollups Sample.env sh [] Sample.tree Sample.arrays in
  let s := @drive Sample.env 5 sh (start p.1 p.2) in
  rtc (@step Sample.env sh) (start p.1 p.2) s
  ∧ q_tasks s = drop 3 p.1
  ∧ ∃ started,
      p.1 = started ++ q_tasks s
      ∧ started ≡ₚ q_running s ++ map fst (q_thrown s) ++ map fst (q_done s).
Proof.
  intros sh p s.
  assert (rtc (@step Sample.env sh) (start p.1 p.2) s) as Hrun
    by apply drive_run.
  split; [done|]. split; [by vm_compute|].
  exact (@tasks_start_in_order Sample.env sh p.1 p.2 s Hrun).
Defined.



(** X17.  Every build that throws takes a worker for good, so there are
    never more thrown builds than workers; and once as many builds have
    thrown as there are workers the queue is dead: nothing is in flight,
    nothing can start, and the tasks still waiting are never built.  With
    one worker the first failing build ends the run. *)
Theorem failures_take_workers `{Env} (sh : Shaker) (ts : list item) (h0 : heap)
    (s : qstate) :
  rtc (step sh) (start ts h0) s →
  length (q_thrown s) ≤ _parallel sh
  ∧ (length (q_thrown s) = _parallel sh →
     q_running s = [] ∧ stuck sh s
     ∧ ∀ s', rtc (step sh) s s' → s' = s).
Proof.
  intros Hrun. pose proof (workers_run sh ts h0 s Hrun) as Hle.
  apply inv_run in Hrun. pose proof (inv_workers _ _ _ _ Hrun) as Hw.
  split; [lia|]. intros Hfull.
  assert (q_running s = []) as Hnone by (apply length_zero_iff_nil; lia).
  assert (stuck sh s) as Hstuck.
  { intros s' Hstep.
    destruct Hstep as [s t ts' _ Hfree|s pre it post ? ? Hr _|s pre it post ? Hr _].
    - lia.
    - rewrite Hnone in Hr. by destruct pre.
    - rewrite Hnone in Hr. by destruct pre. }
  split_and!; [done..|].
  intros s' Hmore. destruct Hmore as [|s s1 s' Hstep _]; [done|].
  by destruct (Hstuck s1).
Qed.

Lemma failures_take_workers_witness :
  let sh := Cases.one_worker in
  let p := @_queueRollups Sample.env sh [] Sample.tree Cases.broken_core in
  let s := @drive Sample.env 2 sh (start p.1 p.2) in
  rtc (@step Sample.env sh) (start p.1 p.2) s
  ∧ length (q_thrown s) = _parallel sh
  ∧ length (q_tasks s) = 4 ∧ length (q_builds s) = 1
  ∧ q_running s = [] ∧ @stuck Sample.env sh s
  ∧ ∀ s', rtc (@step Sample.env sh) s s' → s' = s.
Proof.
  intros sh p s.
  assert (rtc (@step Sample.env sh) (start p.1 p.2) s) as Hrun
    by apply drive_run.
  assert (length (q_thrown s) = _parallel sh) as Hfull by (by vm_compute).
  split; [done|]. split; [done|]. do 2 (split; [by vm_compute|]).
  exact (proj2 (@failures_take_workers Sample.env sh p.1 p.2 s Hrun) Hfull).
Defined.

(** X18.  The order in which builds report back decides nothing but the
    order of the URLs within an array: any two runs of the same queue
    that reach [drain] leave in every array the same URLs, the same
    number of times. *)
Theorem completion_order_only `{Env} (sh : Shaker) (ts : list item) (h0 : heap)
    (s1 s2 : qstate) (l : loc) :
  rtc (step sh) (start ts h0) s1 → rtc (step sh) (start ts h0) s2 →
  q_written s1 ≠ [] → q_written s2 ≠ [] →
  q_heap s1 !!! l ≡ₚ q_heap s2 !!! l.
Proof.
  intros Hinv1%inv_run Hinv2%inv_run Hfired1 Hfired2.
  destruct (drained_all _ _ _ _ Hinv1 Hfired1) as (_ & _ & Hperm1 & _).
  destruct (drained_all _ _ _ _ Hinv2 Hfired2) as (_ & _ & Hperm2 & _).
  rewrite (inv_heap _ _ _ _ Hinv1), (inv_heap _ _ _ _ Hinv2).
  apply Permutation_app_head. unfold urls_for.
  rewrite (done_urls _ _ _ _ Hinv1), (done_urls _ _ _ _ Hinv2).
  by rewrite Hperm1, Hperm2.
Qed.

Lemma completion_order_only_witness :
  let sh := Cases.four_workers in
  let p := @_queueRollups Sample.env sh [] Sample.tree Sample.arrays in
  let s1 := @drive Sample.env 20 sh (start p.1 p.2) in
  let s2 := @drive_last Sample.env 20 sh (start p.1 p.2) in
  rtc (@step Sample.env sh) (start p.1 p.2) s1
  ∧ rtc (@step Sample.env sh) (start p.1 p.2) s2
  ∧ q_written s1 ≠ [] ∧ q_written s2 ≠ []
  ∧ q_heap s1 !!! 3 = ["/static/assets/compiled/Foo_index_{checksum}.js";
                       "/static/assets/compiled/Foo_index_{checksum}.css"]
  ∧ q_heap s2 !!! 3 = ["/static/assets/compiled/Foo_index_{checksum}.css";
                       "/static/assets/compiled/Foo_index_{checksum}.js"]
  ∧ q_heap s1 !!! 3 ≡ₚ q_heap s2 !!! 3.
Proof.
  intros sh p s1 s2.
  assert (rtc (@step Sample.env sh) (start p.1 p.2) s1) as Hrun1
    by apply drive_run.
  assert (rtc (@step Sample.env sh) (start p.1 p.2) s2) as Hrun2
    by apply drive_last_run.
  assert (q_written s1 ≠ []) as Hfired1 by (by vm_compute).
  assert (q_written s2 ≠ []) as Hfired2 by (by vm_compute).
  do 4 (split; [done|]). do 2 (split; [by vm_compute|]).
  exact (@completion_order_only Sample.env sh p.1 p.2 s1 s2 3
           Hrun1 Hrun2 Hfired1 Hfired2).
Defined.

(** X19.  Classifying a group again changes nothing: the scripts of a
    list classify as those same scripts and no style sheet, and its style
    sheets as those same style sheets and no script. *)
Theorem filterFiles_again `{Env} (files : list string) :
  _filterFiles (js (_filterFiles files false)) false
  = Filtered (js (_filterFiles files false)) []
  ∧ _filterFiles (css (_filterFiles files false)) false
    = Filtered [] (css (_filterFiles files false)).
Proof.
  rewrite filterFiles_js, filterFiles_css, !filterFiles_filter. simpl.
  rewrite !map_id, !list_filter_filter.
  split; f_equal.
  - apply list_filter_iff. intros file. tauto.
  - induction files as [|file files IH]; [done|].
    rewrite filter_cons, IH. case_decide as Hboth; [|done].
    destruct Hboth as [Hcss Hjs]. unfold is_js, is_css in *.
    rewrite Hjs in Hcss. discriminate.
  - induction files as [|file files IH]; [done|].
    rewrite filter_cons, IH. case_decide as Hboth; [|done].
    destruct Hboth as [Hjs Hcss]. unfold is_js, is_css in *.
    rewrite Hjs in Hcss. discriminate.
  - apply list_filter_iff. intros file. tauto.
Qed.
